(** * Shahnameh text generation: vocabulary, windowing and sampling

    A shallow embedding of the two notebooks of the repository (the
    character-level generator and the word-level generator) and the
    properties their specification states about them.  The neural network
    layers, the random categorical draw and the vocabulary learned by
    [TextVectorization.adapt] belong to the framework and are taken as
    interfaces; everything the notebooks themselves write is defined here. *)

From Stdlib Require Import ZArith NArith QArith Qcanon String Ascii.
From Equations Require Import Equations.
From stdpp Require Import numbers sorting list.

Local Open Scope nat_scope.

(** ** Text

    A Python [str] is a sequence of Unicode code points.  A [tf.string]
    scalar (a token) is a string as well: in character mode every token of
    the corpus is one code point long, the out-of-vocabulary token is the
    five-character string [[UNK]]. *)

Definition char := N.
Abbreviation str := (list char) (only parsing).
Abbreviation token := (list char) (only parsing).

(** Token ids are [int64] values; no arithmetic is done on them. *)
Definition token_id := Z.
Bind Scope Z_scope with token_id.

(** Code points of a literal written in ASCII. *)
Definition lit (s : string) : str := N_of_ascii <$> list_ascii_of_string s.

Definition NL : char := 10%N.
Definition ZWNJ : char := 8204%N.
Definition PIPE : char := 124%N.

(** [tf.strings.regex_replace(text, c, rewrite)] for a pattern that matches
    exactly the one character [c]: every occurrence is rewritten. *)
Definition regex_replace_char (c : char) (rewrite : str) (text : str) : str :=
  text ≫= (λ x, if decide (x = c) then rewrite else [x]).

(** [tf.strings.regex_replace(text, pat, rewrite)] for a literal pattern of
    several characters: leftmost matches, not overlapping.  [skip] counts
    the characters of a match still to be consumed. *)
Fixpoint regex_replace_go (pat rewrite : str) (skip : nat) (text : str) : str :=
  match text with
  | [] => []
  | c :: rest =>
      match skip with
      | S k => regex_replace_go pat rewrite k rest
      | O =>
          if bool_decide (pat ≠ [] ∧ pat `prefix_of` text)
          then rewrite ++ regex_replace_go pat rewrite (length pat - 1) rest
          else c :: regex_replace_go pat rewrite 0 rest
      end
  end.

Definition regex_replace (pat rewrite : str) (text : str) : str :=
  regex_replace_go pat rewrite 0 text.

(** [list(text)] and [tf.strings.unicode_split(text, 'UTF-8')]: the
    characters of a string, each as a token. *)
Definition unicode_split (text : str) : list token := (λ c, [c]) <$> text.

(** [''.join(tokens)] *)
Definition join (tokens : list token) : str := concat tokens.

(** ** Outcome of a call

    A Python call either returns or raises.  [IndexError] and [ValueError]
    are Python's own, [InvalidArgumentError] is the framework's;
    [InvalidConfig] and [EncodingError] are the two error names of the
    specification, which no line of the notebooks raises. *)

Inductive exn : Set :=
  | IndexError
  | ValueError
  | InvalidArgumentError
  | InvalidConfig
  | EncodingError.

Inductive outcome (A : Type) : Type :=
  | Returned (a : A)
  | Raised (e : exn).
Arguments Returned {A} a.
Arguments Raised {A} e.

#[global] Instance outcome_ret : MRet outcome := λ A a, Returned a.
#[global] Instance outcome_bind : MBind outcome := λ A B k m,
  match m with
  | Returned a => k a
  | Raised e => Raised e
  end.

(** ** Scores

    Scores, the mask and the temperature are floating-point numbers.  A
    finite value is kept as an exact rational (rounding, overflow and the
    sign of zero are not modelled); the three special values follow the
    IEEE 754 rules for addition and division. *)

Inductive fp : Set :=
  | NaN
  | NInf
  | PInf
  | Fin (q : Qc).

Local Open Scope Qc_scope.

Definition fneg (x : fp) : fp :=
  match x with
  | NaN => NaN
  | NInf => PInf
  | PInf => NInf
  | Fin q => Fin (- q)
  end.

Definition fadd (x y : fp) : fp :=
  match x, y with
  | NaN, _ | _, NaN => NaN
  | PInf, NInf | NInf, PInf => NaN
  | PInf, _ | _, PInf => PInf
  | NInf, _ | _, NInf => NInf
  | Fin a, Fin b => Fin (a + b)
  end.

Definition fdiv (x y : fp) : fp :=
  match x, y with
  | NaN, _ | _, NaN => NaN
  | (PInf | NInf), (PInf | NInf) => NaN
  | Fin _, (PInf | NInf) => Fin 0
  | PInf, Fin t => if decide (t < 0) then NInf else PInf
  | NInf, Fin t => if decide (t < 0) then PInf else NInf
  | Fin a, Fin t =>
      if decide (t = 0)
      then (if decide (a = 0) then NaN else if decide (0 < a) then PInf else NInf)
      else Fin (a / t)
  end.


Definition is_finite (x : fp) : bool :=
  match x with Fin _ => true | _ => false end.

Local Close Scope Qc_scope.

(** ** The framework's pieces

    *** [keras.layers.StringLookup(vocabulary=..., mask_token=None)]

    One out-of-vocabulary index (the default), no mask token: index [0] is
    the out-of-vocabulary token [[UNK]], the token at position [i] of the
    vocabulary has index [i + 1].  The checks the layer makes on the
    vocabulary it is given (at least one token, none repeated) are not
    modelled. *)

Definition UNK : token := lit "[UNK]".

Module StringLookup.

(** [invert=False]: a token that is not in the table gets index [0]. *)
Definition lookup (vocabulary : list token) (t : token) : token_id :=
  match list_find (λ v, v = t) vocabulary with
  | Some (i, _) => Z.of_nat i + 1
  | None => 0
  end%Z.

(** [invert=True]: an index that is not in the table gets [[UNK]]. *)
Definition invert (vocabulary : list token) (i : token_id) : token :=
  if decide (1 ≤ i)%Z
  then default UNK (vocabulary !! Z.to_nat (i - 1))
  else UNK.

Definition get_vocabulary (vocabulary : list token) : list token :=
  UNK :: vocabulary.

End StringLookup.

(** *** [tf.data]

    A finite dataset is the list of its elements;
    [Dataset.from_tensor_slices] of a vector is the list of its entries,
    [cache] and [prefetch] do not change the elements. *)

Module Dataset.

(** [ds.batch(batch_size, drop_remainder=...)]: consecutive groups of
    [batch_size] elements; the last, shorter group is kept only without
    [drop_remainder].  The framework rejects a [batch_size] of zero; the
    notebooks pass [MAX_SEQ + 1] and [64]. *)
Equations? batch {A} (batch_size : nat) (drop_remainder : bool)
    (ds : list A) : list (list A) by wf (length ds) lt :=
  batch 0 _ _ := [];
  batch (S n) drop_remainder ds with decide (S n ≤ length ds) := {
    | left _ => take (S n) ds :: batch (S n) drop_remainder (drop (S n) ds)
    | right _ =>
        if drop_remainder || bool_decide (ds = []) then [] else [ds] }.
Proof. rewrite length_drop. lia. Qed.

Definition map {A B} (f : A → B) (ds : list A) : list B := f <$> ds.

Definition flat_map {A B} (f : A → list B) (ds : list A) : list B := ds ≫= f.

(** [ds.shuffle(buffer_size)], one pass: the buffer is filled with the
    first [buffer_size] elements; each element given out is drawn at
    random from the buffer and its place is taken by the next element of
    the input, as long as there is one.  [choice k] is the random number
    of the [k]-th draw, [n] the number of elements still to give out.  The
    framework rejects a [buffer_size] of zero; the notebook passes
    [1000]. *)
Fixpoint shuffle_go {A} (n : nat) (choice : nat → nat) (k : nat)
    (buffer input : list A) : list A :=
  match n with
  | O => []
  | S n' =>
      let i := choice k `mod` length buffer in
      match buffer !! i with
      | None => []
      | Some x =>
          match input with
          | y :: input' =>
              x :: shuffle_go n' choice (S k) (<[i := y]> buffer) input'
          | [] => x :: shuffle_go n' choice (S k) (delete i buffer) []
          end
      end
  end.

Definition shuffle {A} (buffer_size : nat) (choice : nat → nat)
    (ds : list A) : list A :=
  shuffle_go (length ds) choice 0 (take buffer_size ds) (drop buffer_size ds).

End Dataset.

(** [tf.sparse.to_dense(SparseTensor(values, indices, dense_shape))] for a
    vector: zero everywhere but at the listed indices; an index outside
    the shape is rejected. *)
Definition sparse_to_dense (indices : list token_id) (values : list fp)
    (dense_shape : nat) : outcome (list fp) :=
  if bool_decide (Forall (λ i, 0 ≤ i < Z.of_nat dense_shape)%Z indices)
  then Returned (foldr (λ iv dense, <[Z.to_nat iv.1 := iv.2]> dense)
                   (replicate dense_shape (Fin 0)) (zip indices values))
  else Raised InvalidArgumentError.

(** *** The layers of the network and the random draw

    [Embedding], [GRU] and [Dense] are the framework's; [dense] returns one
    score vector for each input position.  [categorical] is one draw of
    [tf.random.categorical(logits, num_samples=1)], with the state of the
    random generator passed explicitly. *)

Record Layers := {
  Emb : Type;
  Seq : Type;
  State : Type;
  embedding : list token_id → Emb;
  gru : Emb → State → Seq * State;
  gru_get_initial_state : Emb → State;
  dense : Seq → list (list fp) }.

Record Random := {
  Rng : Type;
  categorical : list fp → Rng → token_id * Rng }.

(** [MyModel.call(inputs, states, return_state=True)], the same in both
    notebooks. *)
Definition MyModel_call (net : Layers) (inputs : list token_id)
    (states : option (State net)) : list (list fp) * State net :=
  let x := embedding net inputs in
  let states :=
    match states with
    | None => gru_get_initial_state net x
    | Some s => s
    end in
  let '(x, states) := gru net x states in
  (dense net x, states).

(** *** The sampler object

    The fields [One_Step.__init__] sets in both notebooks; the lookup
    layers it keeps are those of the vocabulary [vocab]. *)
Record One_Step := {
  vocab : list token;
  temperature : fp;
  prediction_mask : list fp }.

(** The scores the draw is made from, the same two lines in both
    notebooks: [predicted / self.temperature], then
    [predicted + self.prediction_mask], entry by entry (the [Dense] layer
    has as many units as the mask has entries). *)
Definition masked_scores (self : One_Step) (predicted : list fp) : list fp :=
  let predicted := (λ x, fdiv x (temperature self)) <$> predicted in
  zip_with fadd predicted (prediction_mask self).

(** The distribution [tf.random.categorical] draws from: the scores are
    unnormalised log-probabilities, so index [i] has weight [exp] of its
    score and probability its share of the total weight.  [exp] is taken on
    the rationals as any function [expq]; at the special values it is the
    IEEE one. *)
Section Distribution.
Variable expq : Qc → Qc.



End Distribution.

(** ** The character-level notebook *)

Module CharLevel.

(** Preprocessing: every zero-width non-joiner is removed. *)
Definition preprocess (text : str) : str := regex_replace_char ZWNJ [] text.

(** [vocabulary = sorted(set(text))].  The elements of the set are the
    characters of the text; strings of one character are ordered by code
    point.  Each character is a token. *)
Definition vocabulary (text : str) : list token :=
  (λ c, [c]) <$> merge_sort N.le (remove_dups text).


(** The two lookup layers built from the vocabulary. *)
Definition ids_to_char (vocabulary : list token) (i : token_id) : token :=
  StringLookup.invert vocabulary i.

Definition char_to_ids (vocabulary : list token) (t : token) : token_id :=
  StringLookup.lookup vocabulary t.

Definition ids_to_text (vocabulary : list token) (ids : list token_id) : str :=
  let characters := ids_to_char vocabulary <$> ids in
  join characters.

(** [text_to_ids = char_to_ids(list(text))] *)
Definition text_to_ids (vocabulary : list token) (text : str) : list token_id :=
  char_to_ids vocabulary <$> unicode_split text.

(** [inputs = ids[:-1]], [target = ids[1:]] *)
Definition create_input_target {A} (ids : list A) : list A * list A :=
  let inputs := take (length ids - 1) ids in
  let target := drop 1 ids in
  (inputs, target).

(** The training sequences: [MAX_SEQ] is [100] in the notebook. *)
Definition dataset {A} (MAX_SEQ : nat) (text_to_ids : list A)
    : list (list A * list A) :=
  let seq := text_to_ids in
  let dataset := Dataset.batch (MAX_SEQ + 1) true seq in
  Dataset.map create_input_target dataset.

(** The training batches: [BATCH_SIZE] is [64] in the notebook. *)
Definition batches {A} (BATCH_SIZE MAX_SEQ : nat) (text_to_ids : list A)
    : list (list (list A * list A)) :=
  Dataset.batch BATCH_SIZE true (dataset MAX_SEQ text_to_ids).

Definition VOCAB_SIZE (vocabulary : list token) : nat :=
  length (StringLookup.get_vocabulary vocabulary).

Definition One_Step_init (vocabulary : list token) (temperature : fp)
    : outcome One_Step :=
  let skip_ids := char_to_ids vocabulary <$> [UNK] in
  prediction_mask ←
    sparse_to_dense skip_ids (replicate (length skip_ids) (fneg PInf))
      (length (StringLookup.get_vocabulary vocabulary));
  mret {| vocab := vocabulary;
          temperature := temperature;
          prediction_mask := prediction_mask |}.

Section Generation.
Variable net : Layers.
Variable rnd : Random.

(** The characters of the input as ids, as they are given to the
    network. *)
Definition input_ids (self : One_Step) (inputs : str) : list token_id :=
  let input_chars := unicode_split inputs in
  char_to_ids (vocab self) <$> input_chars.

Definition generate_one_step (self : One_Step) (inputs : str)
    (states : option (State net)) (g : Rng rnd)
    : outcome (token * State net * Rng rnd) :=
  let input_ids := input_ids self inputs in
  let '(predicted, states) := MyModel_call net input_ids states in
  match last predicted with
  | None => Raised InvalidArgumentError
  | Some predicted =>
      let predicted := masked_scores self predicted in
      let '(predicted_id, g) := categorical rnd predicted g in
      let predicted_chars := ids_to_char (vocab self) predicted_id in
      Returned (predicted_chars, states, g)
  end.

(** The generation loop of the last cell: [n] steps from [next_char],
    the part produced so far being [result]. *)
Fixpoint generate_loop (self : One_Step) (n : nat) (next_char : str)
    (states : option (State net)) (g : Rng rnd) (result : list str)
    : outcome (list str * Rng rnd) :=
  match n with
  | O => Returned (result, g)
  | S n' =>
      r ← generate_one_step self next_char states g;
      let '(next_char, states, g) := r in
      generate_loop self n' next_char (Some states) g (result ++ [next_char])
  end.

Definition generate (self : One_Step) (n : nat) (seed_text : str)
    (g : Rng rnd) : outcome (str * Rng rnd) :=
  r ← generate_loop self n seed_text None g [seed_text];
  mret (join r.1, r.2).

(** The last two cells together: the sampler is built with the given
    temperature ([0.6] in the notebook) and the loop is run for [n]
    steps ([500] in the notebook). *)
Definition run (vocabulary : list token) (temperature : fp) (n : nat)
    (seed_text : str) (g : Rng rnd) : outcome (str * Rng rnd) :=
  one_step_model ← One_Step_init vocabulary temperature;
  generate one_step_model n seed_text g.
End Generation.

End CharLevel.

(** ** The word-level notebook *)

Module WordLevel.

Definition custom_standardization (text : str) : str :=
  let text := regex_replace_char ZWNJ [] text in
  let text := regex_replace_char PIPE (lit " | ") text in
  let text := regex_replace_char NL (lit " <newline> ") text in
  text.

(** [tf.strings.split] without a separator, the splitting of
    [TextVectorization]: runs of ASCII white space separate the tokens
    and no token is empty. *)
Definition is_space (c : char) : bool :=
  bool_decide (c ∈ [9; 10; 11; 12; 13; 32]%N).

Fixpoint split_go (word : str) (text : str) : list token :=
  match text with
  | [] => if bool_decide (word = []) then [] else [word]
  | c :: rest =>
      if is_space c
      then (if bool_decide (word = []) then split_go [] rest
            else word :: split_go [] rest)
      else split_go (word ++ [c]) rest
  end.

Definition split (text : str) : list token := split_go [] text.

(** The layer [text_vec] after [adapt].  [learned] stands for the tokens
    [adapt] has kept (at most [MAX_TOKEN - 2] of them), in the order it
    gives them; before them come the empty mask token (index [0]) and
    [[UNK]] (index [1]). *)
Definition get_vocabulary (learned : list token) : list token :=
  [] :: UNK :: learned.

Definition vocabulary_size (learned : list token) : nat :=
  length (get_vocabulary learned).

Definition lookup (learned : list token) (t : token) : token_id :=
  (if decide (t = [])
   then 0
   else match list_find (λ v, v = t) learned with
        | Some (i, _) => Z.of_nat i + 2
        | None => 1
        end)%Z.

Definition text_vec (learned : list token) (text : str) : list token_id :=
  lookup learned <$> split (custom_standardization text).

(** [l[idx]] on a Python list: negative indices count from the end. *)
Definition list_getitem {A} (l : list A) (idx : token_id) : outcome A :=
  let n := Z.of_nat (length l) in
  let pos := (if decide (idx < 0) then n + idx else idx)%Z in
  if decide (0 ≤ pos < n)%Z
  then match l !! Z.to_nat pos with
       | Some a => Returned a
       | None => Raised IndexError
       end
  else Raised IndexError.

(** [l.index(x)] on a Python list. *)
Definition list_index (l : list token) (x : token) : outcome token_id :=
  match list_find (λ v, v = x) l with
  | Some (i, _) => Returned (Z.of_nat i)
  | None => Raised ValueError
  end.

(** [tf.strings.reduce_join(text, separator=' ')] *)
Fixpoint reduce_join (separator : str) (text : list token) : str :=
  match text with
  | [] => []
  | [t] => t
  | t :: rest => t ++ separator ++ reduce_join separator rest
  end.

Definition ids_to_text (learned : list token) (ids : list token_id) : outcome str :=
  text ← mapM (list_getitem (get_vocabulary learned)) ids;
  let text := regex_replace (lit "<newline>") [NL] <$> text in
  mret (reduce_join (lit " ") text).

Definition vectorizer (learned : list token) (text : str) : list token_id :=
  text_vec learned text.

Definition split_input_target {A} (chunk : list A) : list A * list A :=
  let input_text := take (length chunk - 1) chunk in
  let target_text := drop 1 chunk in
  (input_text, target_text).

(** The training sequences, before they are shuffled and batched:
    [MAX_SEQ_LEN] is [10] in the notebook. *)
Definition dataset (learned : list token) (MAX_SEQ_LEN : nat) (text : str)
    : list (list token_id * list token_id) :=
  let dataset := Dataset.map (vectorizer learned) [text] in
  let dataset := Dataset.flat_map (λ x, x) dataset in
  let seq := Dataset.batch (MAX_SEQ_LEN + 1) true dataset in
  Dataset.map split_input_target seq.

(** The training batches of one pass: the windows are shuffled through a
    buffer of [SHUFFLE_BUFFER] windows ([1000] in the notebook) and put in
    batches of [BATCH_SIZE] ([64] in the notebook), the last one as it
    comes. *)
Definition batches (learned : list token) (choice : nat → nat)
    (BATCH_SIZE SHUFFLE_BUFFER MAX_SEQ_LEN : nat) (text : str)
    : list (list (list token_id * list token_id)) :=
  let dataset := dataset learned MAX_SEQ_LEN text in
  let dataset := Dataset.shuffle SHUFFLE_BUFFER choice dataset in
  Dataset.batch BATCH_SIZE false dataset.

Definition One_Step_init (learned : list token) (temperature : fp)
    : outcome One_Step :=
  i ← list_index (get_vocabulary learned) UNK;
  let skip_ids := [i] in
  prediction_mask ←
    sparse_to_dense skip_ids (replicate (length skip_ids) (fneg PInf))
      (vocabulary_size learned);
  mret {| vocab := learned;
          temperature := temperature;
          prediction_mask := prediction_mask |}.

Section Generation.
Variable net : Layers.
Variable rnd : Random.

Definition input_ids (self : One_Step) (inputs : str) : list token_id :=
  text_vec (vocab self) inputs.

Definition generate_one_step (self : One_Step) (inputs : str)
    (states : option (State net)) (g : Rng rnd)
    : outcome (token_id * State net * Rng rnd) :=
  let ids := input_ids self inputs in
  let '(predicted, states) := MyModel_call net ids states in
  match last predicted with
  | None => Raised InvalidArgumentError
  | Some predicted =>
      let predicted := masked_scores self predicted in
      let '(predicted_id, g) := categorical rnd predicted g in
      Returned (predicted_id, states, g)
  end.

Fixpoint generate_loop (self : One_Step) (n : nat) (next_char : str)
    (states : option (State net)) (g : Rng rnd) (result : list str)
    : outcome (list str * Rng rnd) :=
  match n with
  | O => Returned (result, g)
  | S n' =>
      r ← generate_one_step self next_char states g;
      let '(next_id, states, g) := r in
      next_char ← ids_to_text (vocab self) [next_id];
      generate_loop self n' next_char (Some states) g (result ++ [next_char])
  end.

Definition generate (self : One_Step) (n : nat) (seed_text : str)
    (g : Rng rnd) : outcome (str * Rng rnd) :=
  r ← generate_loop self n seed_text None g [seed_text];
  mret (reduce_join (lit " ") r.1, r.2).

(** The last two cells together ([0.9] and [300] in the notebook). *)
Definition run (learned : list token) (temperature : fp) (n : nat)
    (seed_text : str) (g : Rng rnd) : outcome (str * Rng rnd) :=
  one_step_model ← One_Step_init learned temperature;
  generate one_step_model n seed_text g.
End Generation.

End WordLevel.

(** ** Notions used to state the properties *)

(** [produced_window W stream k w]: [w] is the [k]-th window that one of
    the two notebooks makes, with window length [W], from the stream of
    ids [stream]. *)
Inductive produced_window (W : nat) :
    list token_id → nat → list token_id * list token_id → Prop :=
  | char_window stream k w :
      CharLevel.dataset W stream !! k = Some w →
      produced_window W stream k w
  | word_window learned text k w :
      WordLevel.dataset learned W text !! k = Some w →
      produced_window W (WordLevel.text_vec learned text) k w.



(** A network and a draw to run the loop on concrete inputs: the network
    gives the scores [0; 1; 2] at each position, the draw takes the first
    finite one. *)
Definition constant_net : Layers := {|
  Emb := list token_id;
  Seq := list token_id;
  State := nat;
  embedding := λ ids, ids;
  gru := λ x s, (x, s + length x);
  gru_get_initial_state := λ _, 0;
  dense := λ x, (λ _, [Fin 0; Fin 1; Fin 2]) <$> x |}.

Definition first_finite : Random := {|
  Rng := unit;
  categorical := λ logits g,
    (match list_find (λ x, is_finite x = true) logits with
     | Some (i, _) => Z.of_nat i
     | None => 0%Z
     end, g) |}.

(** What [custom_standardization] writes for one character of the text. *)
Definition standardized_char (c : char) : str :=
  if decide (c = ZWNJ) then []
  else if decide (c = PIPE) then lit " | "
  else if decide (c = NL) then lit " <newline> "
  else [c].

(** The word being read, given out as a token when it is not empty. *)
Definition flush (word : str) : list token :=
  if bool_decide (word = []) then [] else [word].

(** The characters a word is made of, and the tokens the tokenizer of the
    word notebook makes: a vertical bar alone, or a word. *)
Definition clean (c : char) : Prop :=
  WordLevel.is_space c = false ∧ c ≠ ZWNJ ∧ c ≠ PIPE.

Definition token_ok (t : token) : Prop :=
  t ≠ [] ∧ (t = [PIPE] ∨ Forall clean t).

(** * Properties *)

(** ** The windowing pipeline *)

Section BatchFacts.
Context {A : Type}.
Implicit Types (ds : list A) (n k : nat).

Lemma batch_full n d ds :
  S n ≤ length ds →
  Dataset.batch (S n) d ds
  = take (S n) ds :: Dataset.batch (S n) d (drop (S n) ds).
Proof.
  intros H. rewrite Dataset.batch_equation_2 at 1.
  destruct (decide (S n ≤ length ds)); [done | lia].
Qed.

Lemma batch_short n d ds :
  length ds < S n →
  Dataset.batch (S n) d ds = if d || bool_decide (ds = []) then [] else [ds].
Proof.
  intros H. rewrite Dataset.batch_equation_2.
  destruct (decide (S n ≤ length ds)); [lia | done].
Qed.

(** The [k]-th batch is the [k]-th block of the stream, when the stream
    has that many full blocks. *)
Lemma batch_lookup n ds k :
  Dataset.batch (S n) true ds !! k =
    if decide ((k + 1) * S n ≤ length ds)
    then Some (take (S n) (drop (k * S n) ds))
    else None.
Proof.
  revert ds. induction k as [|k IH]; intros ds.
  - destruct (decide (S n ≤ length ds)) as [Hle|Hlt].
    + rewrite batch_full by done. rewrite decide_True by lia. done.
    + rewrite batch_short by lia. rewrite decide_False by lia. done.
  - destruct (decide (S n ≤ length ds)) as [Hle|Hlt].
    + rewrite batch_full by done. cbn [lookup list_lookup]. rewrite IH.
      rewrite length_drop, drop_drop.
      replace (S n + k * S n) with (S k * S n) by lia.
      destruct (decide ((k + 1) * S n ≤ length ds - S n)),
        (decide ((S k + 1) * S n ≤ length ds)); try done; lia.
    + rewrite batch_short by lia. rewrite decide_False by nia. done.
Qed.

Lemma batch_Forall_length n ds :
  Forall (λ b, length b = S n) (Dataset.batch (S n) true ds).
Proof.
  apply Forall_lookup. intros k b. rewrite batch_lookup.
  case_decide; [|done]. intros [= <-].
  rewrite length_take, length_drop. lia.
Qed.

(** Strong induction on the length of the stream. *)
Lemma stream_ind (P : list A → Prop) :
  (∀ ds, (∀ ds', length ds' < length ds → P ds') → P ds) → ∀ ds, P ds.
Proof.
  intros step ds. remember (length ds) as m eqn:Hm.
  revert ds Hm. induction (lt_wf m) as [m _ IH]. intros ds ->.
  apply step. intros ds' Hlt. by apply (IH (length ds')).
Qed.

Lemma batch_length n ds :
  length (Dataset.batch (S n) true ds) = length ds / S n.
Proof.
  induction ds as [ds IH] using stream_ind.
  destruct (decide (S n ≤ length ds)) as [Hle|Hlt].
  - rewrite batch_full by done. cbn [length]. rewrite IH.
    2: { rewrite length_drop. lia. }
    rewrite length_drop.
    replace (length ds) with ((length ds - S n) + 1 * S n) at 2 by lia.
    rewrite Nat.div_add by lia. lia.
  - rewrite batch_short by lia. rewrite Nat.div_small by lia. done.
Qed.

(** The batches are consecutive and do not overlap: put end to end they
    are the stream without a last part shorter than one batch. *)
Lemma batch_concat n ds :
  ∃ remainder,
    ds = concat (Dataset.batch (S n) true ds) ++ remainder
    ∧ length remainder < S n.
Proof.
  induction ds as [ds IH] using stream_ind.
  destruct (decide (S n ≤ length ds)) as [Hle|Hlt].
  - destruct (IH (drop (S n) ds)) as (r & Hr & Hlen).
    { rewrite length_drop. lia. }
    exists r. split; [|done].
    rewrite batch_full by done. cbn [concat].
    rewrite <- (assoc_L (++)), <- Hr. by rewrite take_drop.
  - exists ds. rewrite batch_short by lia. split; [done | lia].
Qed.
End BatchFacts.

Section WindowFacts.
Context {A : Type}.
Implicit Types (stream block : list A) (W k : nat).

Lemma create_input_target_block W block :
  length block = S W →
  CharLevel.create_input_target block = (take W block, drop 1 block).
Proof.
  intros H. unfold CharLevel.create_input_target. rewrite H.
  by replace (S W - 1) with W by lia.
Qed.

Lemma dataset_lookup W stream k :
  CharLevel.dataset W stream !! k =
    if decide ((k + 1) * S W ≤ length stream)
    then Some (take W (drop (k * S W) stream),
               take W (drop (k * S W + 1) stream))
    else None.
Proof.
  unfold CharLevel.dataset, Dataset.map. rewrite list_lookup_fmap.
  rewrite Nat.add_1_r, batch_lookup. case_decide as Hk; [|done].
  cbn [fmap option_fmap option_map]. f_equal.
  rewrite (create_input_target_block W).
  2: { rewrite length_take, length_drop. lia. }
  f_equal.
  - rewrite take_take. f_equal. lia.
  - rewrite <- take_drop_commute, drop_drop. cbn [Nat.add]. 
    by rewrite take_drop_commute, <- take_drop_commute.
Qed.
End WindowFacts.

Lemma word_dataset_char_dataset learned W text :
  WordLevel.dataset learned W text
  = CharLevel.dataset W (WordLevel.text_vec learned text).
Proof.
  unfold WordLevel.dataset, WordLevel.vectorizer, CharLevel.dataset,
    Dataset.map, Dataset.flat_map.
  cbn [fmap list_fmap mbind list_bind]. by rewrite (right_id_L [] (++)).
Qed.

(** The blocks of both notebooks are those of [Dataset.batch]. *)
Lemma char_dataset_blocks {A} W (stream : list A) :
  CharLevel.dataset W stream
  = CharLevel.create_input_target <$> Dataset.batch (W + 1) true stream.
Proof. done. Qed.

Lemma dataset_nil {A} W (stream : list A) :
  length stream < W + 1 → CharLevel.dataset W stream = [].
Proof.
  intros H. rewrite char_dataset_blocks, Nat.add_1_r.
  by rewrite batch_short by lia.
Qed.

Lemma dataset_Forall_length {A} W (stream : list A) :
  Forall (λ w, length w.1 = W ∧ length w.2 = W) (CharLevel.dataset W stream).
Proof.
  apply Forall_lookup. intros k [inp tgt]. rewrite dataset_lookup.
  case_decide as Hk; [|done]. intros [= <- <-]. cbn [fst snd].
  rewrite !length_take, !length_drop. lia.
Qed.

(** C1: in every window the notebooks produce, with window length [W], the
    input is the first [W] ids and the target the last [W] ids of one block
    of [W + 1] consecutive ids of the stream (the [k]-th block for the
    [k]-th window); so [tgt[i] = inp[i+1]] for [i + 1 < W], and [tgt[W-1]]
    is the id of the stream that comes right after the last id of the
    input. *)
Theorem window_target_is_input_shifted
    (W : nat) (stream : list token_id) (k : nat) (inp tgt : list token_id) :
  produced_window W stream k (inp, tgt) →
  let block := take (W + 1) (drop (k * (W + 1)) stream) in
  length block = W + 1
  ∧ inp = take W block
  ∧ tgt = drop 1 block
  ∧ length inp = W
  ∧ length tgt = W
  ∧ (∀ i, i + 1 < W → is_Some (tgt !! i) ∧ tgt !! i = inp !! (i + 1))
  ∧ (0 < W →
       is_Some (tgt !! (W - 1))
       ∧ inp !! (W - 1) = stream !! (k * (W + 1) + (W - 1))
       ∧ tgt !! (W - 1) = stream !! (k * (W + 1) + (W - 1) + 1)).
Proof.
  intros Hw.
  assert (CharLevel.dataset W stream !! k = Some (inp, tgt)) as Hk.
  { inversion Hw as [? ? ? H|? ? ? ? H]; subst; [done|].
    by rewrite <- word_dataset_char_dataset. }
  clear Hw. rewrite dataset_lookup in Hk.
  case_decide as Hlen; [|done]. injection Hk as <- <-.
  replace (W + 1) with (S W) by lia. cbn zeta.
  assert (∀ i, i < W →
    take W (drop (k * S W + 1) stream) !! i = stream !! (k * S W + 1 + i)) as Htgt.
  { intros i Hi. by rewrite lookup_take_lt, lookup_drop by done. }
  assert (∀ i, i < W →
    take W (drop (k * S W) stream) !! i = stream !! (k * S W + i)) as Hinp.
  { intros i Hi. by rewrite lookup_take_lt, lookup_drop by done. }
  split_and!.
  - rewrite length_take, length_drop. lia.
  - rewrite take_take. f_equal. lia.
  - by rewrite <- take_drop_commute, drop_drop.
  - rewrite length_take, length_drop. lia.
  - rewrite length_take, length_drop. lia.
  - intros i Hi. rewrite Htgt, Hinp by lia. split.
    + apply lookup_lt_is_Some. nia.
    + f_equal. lia.
  - intros HW. rewrite Htgt, Hinp by lia. split_and!.
    + apply lookup_lt_is_Some. nia.
    + done.
    + f_equal. lia.
Qed.

Lemma window_target_is_input_shifted_witness :
  let stream := [6; 2; 3; 1; 6; 4; 5; 1]%Z in
  produced_window 3 stream 1 ([6; 4; 5]%Z, [4; 5; 1]%Z)
  ∧ [4; 5; 1]%Z !! 2 = stream !! (1 * (3 + 1) + (3 - 1) + 1).
Proof.
  cbn zeta. assert (produced_window 3 [6; 2; 3; 1; 6; 4; 5; 1]%Z 1
                      ([6; 4; 5]%Z, [4; 5; 1]%Z)) as Hw.
  { apply char_window. vm_compute. reflexivity. }
  split; [exact Hw|].
  pose proof (window_target_is_input_shifted 3 _ 1 _ _ Hw) as H.
  cbn zeta in H. destruct H as (_ & _ & _ & _ & _ & _ & H).
  destruct H as (_ & _ & H); [lia|]. exact H.
Defined.

(** C3: the stream is cut into consecutive blocks of exactly [W + 1] ids
    that do not overlap, and what is left at the end, shorter than
    [W + 1], is dropped and not padded: all windows have the same shape.
    On the corpus of the scenario, in character mode with [W = 3], the
    stream has the eight tokens of the corpus and there are exactly two
    windows, the first with input [|ab] and target [ab] and a newline. *)
Theorem chunking_drops_the_remainder :
  (∀ (W : nat) (stream : list token_id),
     let blocks := Dataset.batch (W + 1) true stream in
     Forall (λ b, length b = W + 1) blocks
     ∧ length blocks = length stream / (W + 1)
     ∧ (∀ k block, blocks !! k = Some block →
          block = take (W + 1) (drop (k * (W + 1)) stream))
     ∧ (∃ remainder,
          stream = concat blocks ++ remainder ∧ length remainder < W + 1)
     ∧ CharLevel.dataset W stream = CharLevel.create_input_target <$> blocks
     ∧ (∀ learned text, stream = WordLevel.text_vec learned text →
          WordLevel.dataset learned W text
          = WordLevel.split_input_target <$> blocks)
     ∧ (∀ k w, produced_window W stream k w →
          length w.1 = W ∧ length w.2 = W))
  ∧ (let corpus := lit "|ab" ++ [NL] ++ lit "|cd" ++ [NL] in
     let vocabulary := CharLevel.vocabulary corpus in
     let stream := CharLevel.text_to_ids vocabulary corpus in
     unicode_split corpus
     = [lit "|"; lit "a"; lit "b"; [NL]; lit "|"; lit "c"; lit "d"; [NL]]
     ∧ CharLevel.ids_to_char vocabulary <$> stream = unicode_split corpus
     ∧ length stream = 8
     ∧ ∃ w1 w2,
         CharLevel.dataset 3 stream = [w1; w2]
         ∧ CharLevel.ids_to_text vocabulary w1.1 = lit "|ab"
         ∧ CharLevel.ids_to_text vocabulary w1.2 = lit "ab" ++ [NL]
         ∧ CharLevel.ids_to_text vocabulary w2.1 = lit "|cd"
         ∧ CharLevel.ids_to_text vocabulary w2.2 = lit "cd" ++ [NL]).
Proof.
  split.
  - intros W stream. cbn zeta. rewrite !Nat.add_1_r. split_and!.
    + apply batch_Forall_length.
    + apply batch_length.
    + intros k block. rewrite batch_lookup. case_decide; [|done].
      by intros [= <-].
    + apply batch_concat.
    + by rewrite char_dataset_blocks, Nat.add_1_r.
    + intros learned text ->.
      by rewrite word_dataset_char_dataset, char_dataset_blocks, Nat.add_1_r.
    + intros k w Hw.
      assert (CharLevel.dataset W stream !! k = Some w) as Hk.
      { inversion Hw as [? ? ? H|? ? ? ? H]; subst; [done|].
        by rewrite <- word_dataset_char_dataset. }
      pose proof (dataset_Forall_length W stream) as Hall.
      rewrite Forall_lookup in Hall. by apply (Hall k).
  - cbn zeta. split_and!; [by vm_compute..|].
    eexists _, _. split; [by vm_compute|]. by vm_compute.
Qed.

Lemma chunking_drops_the_remainder_witness :
  let learned := [lit "|"; lit "<newline>"; lit "ab"] in
  let text := lit "|ab" ++ [NL] ++ lit "|cd" ++ [NL] in
  WordLevel.text_vec learned text = [2; 4; 3; 2; 1; 3]%Z
  ∧ WordLevel.dataset learned 3 text
    = WordLevel.split_input_target
        <$> Dataset.batch (3 + 1) true [2; 4; 3; 2; 1; 3]%Z.
Proof.
  cbn zeta.
  assert (WordLevel.text_vec [lit "|"; lit "<newline>"; lit "ab"]
            (lit "|ab" ++ [NL] ++ lit "|cd" ++ [NL])
          = [2; 4; 3; 2; 1; 3]%Z) as Hids.
  { vm_compute. reflexivity. }
  split; [exact Hids|].
  destruct chunking_drops_the_remainder as (H & _).
  destruct (H 3 [2; 4; 3; 2; 1; 3]%Z) as (_ & _ & _ & _ & _ & Hword & _).
  apply Hword. symmetry. exact Hids.
Defined.

(** C8: a corpus whose stream has fewer than [W + 1] tokens gives no
    window at all, hence no batch; the result is an empty sequence, not an
    error. *)
Theorem short_corpus_gives_no_window (W : nat) (stream : list token_id) :
  length stream < W + 1 →
  CharLevel.dataset W stream = []
  ∧ (∀ BATCH_SIZE, 0 < BATCH_SIZE →
       CharLevel.batches BATCH_SIZE W stream = [])
  ∧ (∀ learned text, stream = WordLevel.text_vec learned text →
       WordLevel.dataset learned W text = []).
Proof.
  intros Hshort. pose proof (dataset_nil W stream Hshort) as Hnil.
  split_and!.
  - done.
  - intros B HB. unfold CharLevel.batches. rewrite Hnil.
    destruct B as [|B]; [lia|]. by rewrite batch_short by (cbn; lia).
  - intros learned text ->. by rewrite word_dataset_char_dataset.
Qed.

Lemma short_corpus_gives_no_window_witness :
  length [6; 2; 3]%Z < 3 + 1
  ∧ CharLevel.dataset 3 [6; 2; 3]%Z = []
  ∧ CharLevel.batches 64 3 [6; 2; 3]%Z = [].
Proof.
  assert (length [6; 2; 3]%Z < 3 + 1) as Hshort by (cbn; lia).
  split; [exact Hshort|].
  destruct (short_corpus_gives_no_window 3 [6; 2; 3]%Z Hshort) as (H1 & H2 & _).
  split; [exact H1 | apply (H2 64); lia].
Defined.

(** ** The vocabulary and the two lookups *)

Section LookupFacts.
Implicit Types (vocabulary : list token) (t : token) (i : nat).

Lemma lookup_elem_of vocabulary t :
  t ∈ vocabulary →
  ∃ i, StringLookup.lookup vocabulary t = (Z.of_nat i + 1)%Z
       ∧ vocabulary !! i = Some t.
Proof.
  intros Hin. unfold StringLookup.lookup.
  destruct (list_find_elem_of (λ v, v = t) vocabulary t Hin eq_refl)
    as [[i v] Hfind].
  rewrite Hfind. apply list_find_Some in Hfind as (Hi & -> & _). eauto.
Qed.

Lemma lookup_not_elem_of vocabulary t :
  t ∉ vocabulary → StringLookup.lookup vocabulary t = 0%Z.
Proof.
  intros Hnotin. unfold StringLookup.lookup.
  destruct (list_find _ _) as [[i v]|] eqn:Hfind; [|done].
  apply list_find_Some in Hfind as (Hi & -> & _).
  destruct Hnotin. by eapply list_elem_of_lookup_2.
Qed.


Lemma invert_0 vocabulary : StringLookup.invert vocabulary 0%Z = UNK.
Proof. done. Qed.





Lemma StronglySorted_le_lt (cs : list N) :
  StronglySorted N.le cs → NoDup cs → StronglySorted N.lt cs.
Proof.
  induction 1 as [|c cs Hs IH Hall]; intros Hnd; [constructor|].
  apply NoDup_cons in Hnd as [Hc Hnd]. constructor; [by apply IH|].
  rewrite Forall_forall in Hall |- *. intros x Hx.
  specialize (Hall x Hx). assert (c ≠ x) by (by intros ->). lia.
Qed.

Lemma sorted_chars text :
  let chars := merge_sort N.le (remove_dups text) in
  StronglySorted N.lt chars ∧ NoDup chars ∧ ∀ c, c ∈ chars ↔ c ∈ text.
Proof.
  cbn zeta.
  assert (NoDup (merge_sort N.le (remove_dups text))) as Hnd.
  { rewrite merge_sort_Permutation. apply NoDup_remove_dups. }
  split_and!; [|done|].
  - apply StronglySorted_le_lt; [|done].
    apply (StronglySorted_merge_sort _).
  - intros c. by rewrite merge_sort_Permutation, elem_of_remove_dups.
Qed.


Lemma preprocess_elem_of text c :
  c ∈ CharLevel.preprocess text ↔ c ∈ text ∧ c ≠ ZWNJ.
Proof.
  unfold CharLevel.preprocess, regex_replace_char.
  rewrite list_elem_of_bind. split.
  - intros (x & Hc & Hx). case_decide; [by apply elem_of_nil in Hc|].
    apply list_elem_of_singleton in Hc as ->. done.
  - intros [Hc Hne]. exists c. split; [|done].
    rewrite decide_False by done. by apply list_elem_of_singleton.
Qed.
End LookupFacts.

Section WordLookupFacts.
Implicit Types (learned : list token) (t : token).

Lemma list_getitem_lookup {A} (l : list A) (i : nat) (a : A) :
  l !! i = Some a → WordLevel.list_getitem l (Z.of_nat i) = Returned a.
Proof.
  intros Hi. unfold WordLevel.list_getitem. cbn zeta.
  pose proof (lookup_lt_Some _ _ _ Hi).
  destruct (decide (Z.of_nat i < 0)%Z); [lia|].
  rewrite decide_True by lia. by rewrite Nat2Z.id, Hi.
Qed.

Lemma word_lookup_elem_of learned t :
  t ≠ [] → t ∈ learned →
  ∃ i, WordLevel.lookup learned t = (Z.of_nat i + 2)%Z
       ∧ learned !! i = Some t.
Proof.
  intros Hne Hin. unfold WordLevel.lookup. rewrite decide_False by done.
  destruct (list_find_elem_of (λ v, v = t) learned t Hin eq_refl)
    as [[i v] Hfind].
  rewrite Hfind. apply list_find_Some in Hfind as (Hi & -> & _). eauto.
Qed.

Lemma word_lookup_not_elem_of learned t :
  t ≠ [] → t ∉ learned → WordLevel.lookup learned t = 1%Z.
Proof.
  intros Hne Hnotin. unfold WordLevel.lookup. rewrite decide_False by done.
  destruct (list_find _ _) as [[i v]|] eqn:Hfind; [|done].
  apply list_find_Some in Hfind as (Hi & -> & _).
  destruct Hnotin. by eapply list_elem_of_lookup_2.
Qed.

Lemma word_getitem_lookup learned t :
  t ∈ WordLevel.get_vocabulary learned →
  WordLevel.list_getitem (WordLevel.get_vocabulary learned)
    (WordLevel.lookup learned t) = Returned t.
Proof.
  intros Hin. destruct (decide (t = [])) as [->|Hne].
  { by apply (list_getitem_lookup _ 0). }
  destruct (decide (t ∈ learned)) as [Hl|Hl].
  - destruct (word_lookup_elem_of _ _ Hne Hl) as (i & -> & Hi).
    replace (Z.of_nat i + 2)%Z with (Z.of_nat (S (S i))) by lia.
    by apply list_getitem_lookup.
  - rewrite word_lookup_not_elem_of by done.
    apply (list_getitem_lookup _ 1). cbn.
    unfold WordLevel.get_vocabulary in Hin.
    apply elem_of_cons in Hin as [->|Hin]; [done|].
    apply elem_of_cons in Hin as [->|Hin]; done.
Qed.


Lemma split_go_nonempty word text :
  Forall (λ t, t ≠ []) (WordLevel.split_go word text).
Proof.
  revert word. induction text as [|c rest IH]; intros word; cbn.
  - case_bool_decide; [constructor | by repeat constructor].
  - destruct (WordLevel.is_space c); [|apply IH].
    case_bool_decide; [apply IH | constructor; [done | apply IH]].
Qed.

Lemma split_nonempty text : Forall (λ t, t ≠ []) (WordLevel.split text).
Proof. apply split_go_nonempty. Qed.
End WordLookupFacts.







(** ** Unknown tokens on the input side *)



(** ** The sampler: mask, temperature and draw *)

Section MaskFacts.
Implicit Types (self : One_Step) (T x y : fp) (unk n i : nat).

Lemma sparse_to_dense_one (i : token_id) (v : fp) n :
  (0 ≤ i < Z.of_nat n)%Z →
  sparse_to_dense [i] [v] n
  = Returned (<[Z.to_nat i := v]> (replicate n (Fin 0))).
Proof.
  intros Hi. unfold sparse_to_dense.
  rewrite bool_decide_eq_true_2; [done|]. by apply Forall_singleton.
Qed.

Lemma lookup_range (vocabulary : list token) (t : token) :
  (0 ≤ StringLookup.lookup vocabulary t ≤ Z.of_nat (length vocabulary))%Z.
Proof.
  destruct (decide (t ∈ vocabulary)) as [Hin|Hin].
  - destruct (lookup_elem_of _ _ Hin) as (i & -> & Hi).
    apply lookup_lt_Some in Hi. lia.
  - rewrite lookup_not_elem_of by done. lia.
Qed.

(** The constructor of the character notebook never raises. *)
Lemma char_init_returns (vocabulary : list token) T :
  CharLevel.One_Step_init vocabulary T
  = Returned {|
      vocab := vocabulary;
      temperature := T;
      prediction_mask :=
        <[Z.to_nat (CharLevel.char_to_ids vocabulary UNK) := NInf]>
          (replicate (CharLevel.VOCAB_SIZE vocabulary) (Fin 0)) |}.
Proof.
  unfold CharLevel.One_Step_init. cbn zeta. cbn [fmap list_fmap length replicate].
  rewrite sparse_to_dense_one; [done|].
  pose proof (lookup_range vocabulary UNK).
  unfold CharLevel.char_to_ids, StringLookup.get_vocabulary.
  cbn [length]. lia.
Qed.

(** Nor does the constructor of the word notebook: [[UNK]] is always
    found, at index [1]. *)
Lemma word_init_returns (learned : list token) T :
  WordLevel.One_Step_init learned T
  = Returned {|
      vocab := learned;
      temperature := T;
      prediction_mask :=
        <[1 := NInf]> (replicate (WordLevel.vocabulary_size learned) (Fin 0)) |}.
Proof.
  unfold WordLevel.One_Step_init.
  assert (WordLevel.list_index (WordLevel.get_vocabulary learned) UNK
          = Returned 1%Z) as ->.
  { unfold WordLevel.list_index, WordLevel.get_vocabulary.
    cbn. rewrite decide_False by done. rewrite decide_True by done. done. }
  cbn [mbind outcome_bind length replicate].
  rewrite sparse_to_dense_one; [done|].
  unfold WordLevel.vocabulary_size, WordLevel.get_vocabulary. cbn [length]. lia.
Qed.






End MaskFacts.

Section LoopFacts.
Variable net : Layers.
Variable rnd : Random.

Lemma char_step_raises self inputs states g e :
  CharLevel.generate_one_step net rnd self inputs states g = Raised e →
  e = InvalidArgumentError.
Proof.
  unfold CharLevel.generate_one_step. cbn zeta.
  destruct (MyModel_call net _ states) as [predicted states'].
  destruct (last predicted) as [scores|]; [|by intros [= <-]].
  by destruct (categorical rnd _ g).
Qed.

Lemma char_loop_raises self n next_char states g result e :
  CharLevel.generate_loop net rnd self n next_char states g result = Raised e →
  e = InvalidArgumentError.
Proof.
  revert next_char states g result.
  induction n as [|n IH]; intros next_char states g result; [done|].
  cbn [CharLevel.generate_loop].
  destruct (CharLevel.generate_one_step _ _ _ _ _ _) as [[[c s] g']|e'] eqn:Hstep.
  - cbn. apply IH.
  - cbn. intros [= <-]. by eapply char_step_raises.
Qed.

Lemma word_step_raises self inputs states g e :
  WordLevel.generate_one_step net rnd self inputs states g = Raised e →
  e = InvalidArgumentError.
Proof.
  unfold WordLevel.generate_one_step. cbn zeta.
  destruct (MyModel_call net _ states) as [predicted states'].
  destruct (last predicted) as [scores|]; [|by intros [= <-]].
  by destruct (categorical rnd _ g).
Qed.

Lemma list_getitem_raises {A} (l : list A) idx e :
  WordLevel.list_getitem l idx = Raised e → e = IndexError.
Proof.
  unfold WordLevel.list_getitem. cbn zeta.
  repeat case_decide; try (by intros [= <-]);
    destruct (_ !! _); by intros [= <-].
Qed.

Lemma word_ids_to_text_raises learned ids e :
  WordLevel.ids_to_text learned ids = Raised e → e = IndexError.
Proof.
  unfold WordLevel.ids_to_text.
  assert (∀ e, mapM (WordLevel.list_getitem (WordLevel.get_vocabulary learned))
                 ids = Raised e → e = IndexError) as Hm.
  { induction ids as [|i ids IH]; intros e'; [done|]. cbn.
    destruct (WordLevel.list_getitem _ i) eqn:Hi; cbn.
    - destruct (mapM _ ids); cbn; [done|]. intros [= <-]. by apply IH.
    - intros [= <-]. by eapply list_getitem_raises. }
  destruct (mapM _ ids); cbn; [done|]. intros [= <-]. by apply Hm.
Qed.

Lemma word_loop_raises self n next_char states g result e :
  WordLevel.generate_loop net rnd self n next_char states g result = Raised e →
  e = InvalidArgumentError ∨ e = IndexError.
Proof.
  revert next_char states g result.
  induction n as [|n IH]; intros next_char states g result; [done|].
  cbn [WordLevel.generate_loop].
  destruct (WordLevel.generate_one_step _ _ _ _ _ _) as [[[c s] g']|e'] eqn:Hstep.
  - cbn [mbind outcome_bind].
    destruct (WordLevel.ids_to_text _ _) as [next|e'] eqn:Htext; cbn.
    + apply IH.
    + intros [= <-]. right. by eapply word_ids_to_text_raises.
  - cbn. intros [= <-]. left. by eapply word_step_raises.
Qed.
End LoopFacts.

(** C4, as the notebooks have it: the temperature is not validated.  For
    every temperature, positive or not, the constructor of the sampler
    returns a sampler that keeps the temperature as it was given, and a
    run never raises [InvalidConfig]; a run of no step returns the seed
    text.  So every run with a positive temperature is accepted, and so is
    every other. *)
Theorem temperature_is_not_validated :
  (∀ (vocabulary : list token) (T : fp),
     ∃ self, CharLevel.One_Step_init vocabulary T = Returned self
             ∧ temperature self = T ∧ vocab self = vocabulary)
  ∧ (∀ (learned : list token) (T : fp),
       ∃ self, WordLevel.One_Step_init learned T = Returned self
               ∧ temperature self = T ∧ vocab self = learned)
  ∧ (∀ net rnd vocabulary T n seed_text g,
       CharLevel.run net rnd vocabulary T n seed_text g ≠ Raised InvalidConfig)
  ∧ (∀ net rnd learned T n seed_text g,
       WordLevel.run net rnd learned T n seed_text g ≠ Raised InvalidConfig)
  ∧ (∀ net rnd vocabulary T seed_text g,
       CharLevel.run net rnd vocabulary T 0 seed_text g = Returned (seed_text, g))
  ∧ (∀ net rnd learned T seed_text g,
       WordLevel.run net rnd learned T 0 seed_text g = Returned (seed_text, g)).
Proof.
  split_and!.
  - intros vocabulary T. rewrite char_init_returns. by eexists.
  - intros learned T. rewrite word_init_returns. by eexists.
  - intros net rnd vocabulary T n seed_text g. unfold CharLevel.run.
    rewrite char_init_returns. cbn [mbind outcome_bind].
    unfold CharLevel.generate.
    destruct (CharLevel.generate_loop _ _ _ _ _ _ _ _) as [r|e] eqn:Hloop;
      cbn; [done|].
    by apply char_loop_raises in Hloop as ->.
  - intros net rnd learned T n seed_text g. unfold WordLevel.run.
    rewrite word_init_returns. cbn [mbind outcome_bind].
    unfold WordLevel.generate.
    destruct (WordLevel.generate_loop _ _ _ _ _ _ _ _) as [r|e] eqn:Hloop;
      cbn; [done|].
    by apply word_loop_raises in Hloop as [->| ->].
  - intros net rnd vocabulary T seed_text g. unfold CharLevel.run.
    rewrite char_init_returns. cbn. unfold join. cbn.
    by rewrite (right_id_L [] (++)).
  - intros net rnd learned T seed_text g. unfold WordLevel.run.
    by rewrite word_init_returns.
Qed.

(** The temperature [0] is not positive, and the constructor returns a
    sampler for it instead of raising [InvalidConfig]; the run goes on and
    draws.  The same for [-1] in the word notebook. *)
Lemma temperature_validation_counterexample :
  let vocabulary := CharLevel.vocabulary (lit "ab") in
  ¬ (0 < 0)%Qc
  ∧ CharLevel.One_Step_init vocabulary (Fin 0)
    = Returned {| vocab := vocabulary;
                  temperature := Fin 0;
                  prediction_mask := [NInf; Fin 0; Fin 0] |}
  ∧ CharLevel.One_Step_init vocabulary (Fin 0) ≠ Raised InvalidConfig
  ∧ CharLevel.run constant_net first_finite vocabulary (Fin 0) 1 (lit "ab") tt
    = Returned (lit "ab[UNK]", tt)
  ∧ WordLevel.One_Step_init [lit "|"] (Fin (- (1))) ≠ Raised InvalidConfig.
Proof.
  cbn zeta. split_and!.
  - intros H. by apply Qclt_not_eq in H.
  - by vm_compute.
  - by vm_compute.
  - by vm_compute.
  - by rewrite word_init_returns.
Qed.

Section DistributionFacts.
Variable expq : Qc → Qc.
Hypothesis expq_pos : ∀ q, (0 < expq q)%Qc.


End DistributionFacts.

Section ScaleFacts.
Implicit Types (a b t : Qc).





End ScaleFacts.









(** * Further properties of the code *)

(** ** Batches *)

Section BatchMore.
Context {A : Type}.
Implicit Types (ds : list A) (n k : nat).

Lemma div_step n m : S n ≤ m → m / S n = S ((m - S n) / S n).
Proof.
  intros H. replace m with ((m - S n) + 1 * S n) at 1 by lia.
  rewrite Nat.div_add by lia. lia.
Qed.

Lemma batch_true_concat n ds :
  concat (Dataset.batch (S n) true ds) = take (length ds / S n * S n) ds.
Proof.
  induction ds as [ds IH] using stream_ind.
  destruct (decide (S n ≤ length ds)) as [Hle|Hlt].
  - rewrite batch_full by done. cbn [concat]. rewrite IH.
    2: { rewrite length_drop. lia. }
    rewrite length_drop, take_take_drop, (div_step n (length ds)) by done.
    f_equal.
  - rewrite batch_short by lia. rewrite Nat.div_small by lia. done.
Qed.

(** Without [drop_remainder] the batches are those with it, and then what
    is left of the dataset, when something is left. *)
Lemma batch_false_true n ds :
  Dataset.batch (S n) false ds
  = Dataset.batch (S n) true ds
    ++ (let rest := drop (length ds / S n * S n) ds in
        if bool_decide (rest = []) then [] else [rest]).
Proof.
  induction ds as [ds IH] using stream_ind. cbn zeta.
  destruct (decide (S n ≤ length ds)) as [Hle|Hlt].
  - rewrite (batch_full n false ds), (batch_full n true ds) by done.
    rewrite IH.
    2: { rewrite length_drop. lia. }
    cbn zeta. rewrite length_drop, drop_drop.
    rewrite (div_step n (length ds)) by done. done.
  - rewrite (batch_short n false ds), (batch_short n true ds) by lia.
    rewrite Nat.div_small by lia. done.
Qed.
End BatchMore.

(** ** The shuffle buffer *)

Section ShuffleFacts.
Context {A : Type}.
Implicit Types (buffer input ds : list A) (n k : nat).

Lemma insert_delete_Permutation buffer i y :
  i < length buffer → <[i:=y]> buffer ≡ₚ y :: delete i buffer.
Proof.
  intros Hi. rewrite insert_take_drop, delete_take_drop by done.
  by rewrite Permutation_middle.
Qed.

Lemma shuffle_go_Permutation n choice k buffer input :
  n = length buffer + length input →
  (buffer = [] → input = []) →
  Dataset.shuffle_go n choice k buffer input ≡ₚ buffer ++ input.
Proof.
  revert k buffer input.
  induction n as [|n IH]; intros k buffer input Hn Hnil.
  - destruct buffer, input; done.
  - assert (buffer ≠ []) as Hne.
    { intros ->. rewrite Hnil in Hn by done. done. }
    assert (0 < length buffer) as Hlen by (destruct buffer; [done | cbn; lia]).
    cbn [Dataset.shuffle_go]. cbn zeta.
    pose proof (Nat.mod_upper_bound (choice k) (length buffer)) as Hi.
    specialize (Hi ltac:(lia)).
    destruct (lookup_lt_is_Some_2 buffer _ Hi) as [x Hx]. rewrite Hx.
    destruct input as [|y input].
    + rewrite IH.
      * rewrite !(right_id_L [] (++)). symmetry. by apply delete_Permutation.
      * rewrite length_delete by eauto. cbn in *. lia.
      * done.
    + rewrite IH.
      * rewrite insert_delete_Permutation by done.
        transitivity ((x :: delete (choice k `mod` length buffer) buffer)
                        ++ y :: input).
        { cbn. f_equiv. by rewrite <- Permutation_middle. }
        by rewrite <- (delete_Permutation buffer _ x Hx).
      * rewrite length_insert. cbn in *. lia.
      * intros Hb. apply (f_equal length) in Hb.
        rewrite length_insert in Hb. cbn in Hb. lia.
Qed.

Lemma shuffle_Permutation buffer_size choice ds :
  0 < buffer_size → Dataset.shuffle buffer_size choice ds ≡ₚ ds.
Proof.
  intros Hb. unfold Dataset.shuffle. rewrite shuffle_go_Permutation.
  - by rewrite take_drop.
  - rewrite length_take, length_drop. lia.
  - intros Ht. apply (f_equal length) in Ht.
    rewrite length_take in Ht. cbn in Ht.
    apply nil_length_inv. rewrite length_drop. lia.
Qed.

(** A buffer of one element gives the elements out in their order. *)
Lemma shuffle_go_one n choice k (x : A) input :
  n = S (length input) →
  Dataset.shuffle_go n choice k [x] input = x :: input.
Proof.
  revert k x input. induction n as [|n IH]; intros k x input Hn; [done|].
  cbn [Dataset.shuffle_go length]. cbn zeta. rewrite Nat.mod_1_r. cbn.
  destruct input as [|y input]; [by destruct n|].
  rewrite IH; [done|]. cbn in Hn. lia.
Qed.
End ShuffleFacts.

(** The same choices on the images of the elements give the images. *)
Lemma shuffle_go_fmap {A B} (f : A → B) n choice k (buffer input : list A) :
  Dataset.shuffle_go n choice k (f <$> buffer) (f <$> input)
  = f <$> Dataset.shuffle_go n choice k buffer input.
Proof.
  revert k buffer input. induction n as [|n IH]; intros k buffer input; [done|].
  cbn [Dataset.shuffle_go]. cbn zeta. rewrite length_fmap, list_lookup_fmap.
  destruct (buffer !! _) as [x|]; [|done]. cbn.
  destruct input as [|y input]; cbn.
  - rewrite <- (IH _ _ []). f_equal. f_equal.
    rewrite !delete_take_drop, fmap_app, fmap_take, fmap_drop. done.
  - rewrite <- IH. by rewrite list_fmap_insert.
Qed.

Lemma shuffle_fmap {A B} (f : A → B) buffer_size choice (ds : list A) :
  Dataset.shuffle buffer_size choice (f <$> ds)
  = f <$> Dataset.shuffle buffer_size choice ds.
Proof.
  unfold Dataset.shuffle.
  by rewrite length_fmap, <- fmap_take, <- fmap_drop, shuffle_go_fmap.
Qed.

(** The element given out at the [p]-th draw after [k] draws was among
    the first [k + p + buffer_size] elements. *)
Lemma shuffle_go_bound n choice k b m (buffer : list nat) :
  Forall (λ j, j < k + b) buffer →
  ∀ p j, Dataset.shuffle_go n choice k buffer (seq (k + b) m) !! p = Some j →
         j < k + p + b.
Proof.
  revert k m buffer. induction n as [|n IH]; intros k m buffer Hall p j; [done|].
  cbn [Dataset.shuffle_go]. cbn zeta.
  destruct (buffer !! _) as [x|] eqn:Hx; [|done].
  assert (x < k + b) as Hxb.
  { rewrite Forall_lookup in Hall. by eapply Hall. }
  destruct m as [|m]; cbn [seq].
  - destruct p as [|p]; cbn; [intros [= <-]; lia|].
    intros Hp. change [] with (seq (S k + b) 0) in Hp.
    apply IH in Hp; [lia|].
    apply Forall_delete. eapply Forall_impl; [done|]. cbn. lia.
  - destruct p as [|p]; cbn; [intros [= <-]; lia|].
    intros Hp. change (S (k + b)) with (S k + b) in Hp.
    apply IH in Hp; [lia|].
    apply Forall_insert; [|lia]. eapply Forall_impl; [done|]. cbn. lia.
Qed.

(** X1: one pass of the shuffle gives every element of the dataset exactly
    once; the element given out at position [k] is one of the first
    [k + buffer_size] elements of the dataset, and a buffer of one element
    leaves the order as it is. *)
Theorem shuffle_is_a_bounded_permutation {A}
    (buffer_size : nat) (choice : nat → nat) (ds : list A) :
  0 < buffer_size →
  let out := Dataset.shuffle buffer_size choice ds in
  let order := Dataset.shuffle buffer_size choice (seq 0 (length ds)) in
  out ≡ₚ ds
  ∧ order ≡ₚ seq 0 (length ds)
  ∧ (∀ k, out !! k = order !! k ≫= (λ j, ds !! j))
  ∧ (∀ k j, order !! k = Some j → j < k + buffer_size)
  ∧ (buffer_size = 1 → out = ds).
Proof.
  intros Hb. cbn zeta.
  pose proof (shuffle_Permutation buffer_size choice (seq 0 (length ds)) Hb)
    as Horder.
  split_and!.
  - by apply shuffle_Permutation.
  - done.
  - intros k. destruct ds as [|d ds']; [by destruct k|].
    set (ds := d :: ds') in *.
    set (f := λ j, default d (ds !! j)).
    assert (ds = f <$> seq 0 (length ds)) as Hds.
    { apply list_eq. intros i. rewrite list_lookup_fmap.
      destruct (decide (i < length ds)) as [Hi|Hi].
      - rewrite lookup_seq_lt by done. cbn. unfold f.
        by destruct (lookup_lt_is_Some_2 ds i Hi) as [x ->].
      - rewrite lookup_seq_ge by lia. apply lookup_ge_None. lia. }
    rewrite Hds at 1. rewrite shuffle_fmap, list_lookup_fmap.
    destruct (Dataset.shuffle _ _ (seq _ _) !! k) as [j|] eqn:Hj; [|done].
    cbn. assert (j < length ds) as Hlt.
    { apply list_elem_of_lookup_2 in Hj. rewrite Horder in Hj.
      apply elem_of_seq in Hj. lia. }
    unfold f. by destruct (lookup_lt_is_Some_2 ds j Hlt) as [x ->].
  - intros k j Hj. unfold Dataset.shuffle in Hj.
    rewrite length_seq, take_seq, drop_seq in Hj.
    apply (shuffle_go_bound _ _ 0 buffer_size) in Hj; [done|].
    apply Forall_seq. lia.
  - intros ->. unfold Dataset.shuffle. destruct ds as [|x ds]; [done|].
    cbn [take drop length]. rewrite take_0, drop_0. by apply shuffle_go_one.
Qed.

Lemma shuffle_is_a_bounded_permutation_witness :
  0 < 3
  ∧ Dataset.shuffle 3 (λ k, k * 7 + 2) [10; 11; 12; 13; 14; 15]
    ≡ₚ [10; 11; 12; 13; 14; 15].
Proof.
  assert (0 < 3) as Hb by lia. split; [exact Hb|].
  exact (proj1 (shuffle_is_a_bounded_permutation 3 (λ k, k * 7 + 2)
                  [10; 11; 12; 13; 14; 15] Hb)).
Defined.

Section BatchShape.
Context {A : Type}.
Implicit Types (ds : list A) (n k : nat).

Lemma batch_false_shape n ds :
  let batches := Dataset.batch (S n) false ds in
  concat batches = ds
  ∧ Forall (λ b, 0 < length b ≤ S n) batches
  ∧ (∀ k b, batches !! k = Some b → S k < length batches → length b = S n)
  ∧ length batches
    = length ds / S n + (if decide (length ds `mod` S n = 0) then 0 else 1).
Proof.
  cbn zeta. rewrite batch_false_true. cbn zeta.
  pose proof (Nat.div_mod_eq (length ds) (S n)) as Hdm.
  pose proof (Nat.mod_upper_bound (length ds) (S n) ltac:(lia)) as Hmod.
  set (q := length ds / S n) in *. set (r := length ds `mod` S n) in *.
  assert (length (drop (q * S n) ds) = r) as Hrest.
  { rewrite length_drop. lia. }
  pose proof (batch_Forall_length n ds) as Hfull.
  pose proof (batch_length n ds) as Hcount. fold q in Hcount.
  split_and!.
  - rewrite concat_app, batch_true_concat. fold q.
    case_bool_decide as Hnil.
    + cbn [concat]. rewrite <- Hnil. apply take_drop.
    + cbn [concat]. rewrite (right_id_L [] (++)). apply take_drop.
  - apply Forall_app. split.
    + eapply Forall_impl; [exact Hfull|]. cbn. lia.
    + case_bool_decide as Hnil; [constructor|].
      apply Forall_singleton. rewrite Hrest.
      destruct (drop (q * S n) ds) eqn:E; [done|]. cbn [length] in Hrest. lia.
  - intros k b Hk Hlast. rewrite length_app in Hlast.
    assert (k < length (Dataset.batch (S n) true ds)) as Hin.
    { case_bool_decide; cbn [length] in Hlast; lia. }
    rewrite lookup_app_l in Hk by done.
    rewrite Forall_lookup in Hfull. by eapply Hfull.
  - rewrite length_app, Hcount. f_equal.
    case_bool_decide as Hnil; case_decide as Hr; try done.
    + rewrite Hnil in Hrest. cbn [length] in Hrest. lia.
    + destruct Hnil. apply nil_length_inv. lia.
Qed.
End BatchShape.

(** X2: the batches of the character notebook are the windows in their
    order, [BATCH_SIZE] in each one; the windows after the last full batch,
    fewer than [BATCH_SIZE], are in no batch. *)
Theorem char_batches_are_full_and_ordered {A}
    (BATCH_SIZE MAX_SEQ : nat) (text_to_ids : list A) :
  0 < BATCH_SIZE →
  let windows := CharLevel.dataset MAX_SEQ text_to_ids in
  let batches := CharLevel.batches BATCH_SIZE MAX_SEQ text_to_ids in
  Forall (λ b, length b = BATCH_SIZE) batches
  ∧ length batches = length text_to_ids / (MAX_SEQ + 1) / BATCH_SIZE
  ∧ concat batches = take (length batches * BATCH_SIZE) windows
  ∧ length windows - length (concat batches) < BATCH_SIZE
  ∧ (∀ k j, j < BATCH_SIZE → k < length batches →
       batches !! k ≫= (λ b, b !! j) = windows !! (k * BATCH_SIZE + j)).
Proof.
  intros HB. destruct BATCH_SIZE as [|n]; [lia|]. cbn zeta.
  unfold CharLevel.batches.
  set (windows := CharLevel.dataset MAX_SEQ text_to_ids).
  assert (length windows = length text_to_ids / (MAX_SEQ + 1)) as Hw.
  { unfold windows. rewrite char_dataset_blocks, length_fmap, Nat.add_1_r.
    apply batch_length. }
  pose proof (batch_length n windows) as Hcount.
  pose proof (Nat.div_mod_eq (length windows) (S n)) as Hdm.
  pose proof (Nat.mod_upper_bound (length windows) (S n) ltac:(lia)) as Hmod.
  split_and!.
  - apply batch_Forall_length.
  - by rewrite Hcount, Hw.
  - by rewrite batch_true_concat, Hcount.
  - rewrite batch_true_concat, length_take. lia.
  - intros k j Hj Hk. rewrite batch_lookup. rewrite Hcount in Hk.
    rewrite decide_True by nia. cbn.
    rewrite lookup_take_lt, lookup_drop by done. done.
Qed.

Lemma char_batches_are_full_and_ordered_witness :
  0 < 2
  ∧ length (CharLevel.batches 2 1 [1; 2; 3; 4; 5; 6; 7; 8; 9; 10; 11]) = 2.
Proof.
  assert (0 < 2) as HB by lia. split; [exact HB|].
  destruct (char_batches_are_full_and_ordered 2 1
              [1; 2; 3; 4; 5; 6; 7; 8; 9; 10; 11] HB) as (_ & H & _).
  exact H.
Defined.

(** X3: the batches of the word notebook hold every window exactly once,
    in the order of the shuffle; each batch has [BATCH_SIZE] windows but
    the last one, which is kept when it is shorter (and is never empty). *)
Theorem word_batches_keep_every_window
    (learned : list token) (choice : nat → nat)
    (BATCH_SIZE SHUFFLE_BUFFER MAX_SEQ_LEN : nat) (text : str) :
  0 < BATCH_SIZE → 0 < SHUFFLE_BUFFER →
  let windows := WordLevel.dataset learned MAX_SEQ_LEN text in
  let batches :=
    WordLevel.batches learned choice BATCH_SIZE SHUFFLE_BUFFER MAX_SEQ_LEN text in
  concat batches ≡ₚ windows
  ∧ concat batches = Dataset.shuffle SHUFFLE_BUFFER choice windows
  ∧ Forall (λ b, 0 < length b ≤ BATCH_SIZE) batches
  ∧ (∀ k b, batches !! k = Some b → S k < length batches →
       length b = BATCH_SIZE)
  ∧ length batches
    = length windows / BATCH_SIZE
      + (if decide (length windows `mod` BATCH_SIZE = 0) then 0 else 1).
Proof.
  intros HB HS. destruct BATCH_SIZE as [|n]; [lia|]. cbn zeta.
  unfold WordLevel.batches. cbn zeta.
  set (windows := WordLevel.dataset learned MAX_SEQ_LEN text).
  pose proof (shuffle_Permutation SHUFFLE_BUFFER choice windows HS) as Hperm.
  destruct (batch_false_shape n (Dataset.shuffle SHUFFLE_BUFFER choice windows))
    as (Hcat & Hall & Hfull & Hcount).
  split_and!; try done.
  - by rewrite Hcat.
  - by rewrite Hcount, (Permutation_length Hperm).
Qed.

Lemma word_batches_keep_every_window_witness :
  let learned := [lit "|"; lit "<newline>"; lit "ab"] in
  let text := lit "|ab" ++ [NL] ++ lit "|cd" ++ [NL] ++ lit "|ab" ++ [NL] in
  0 < 2 ∧ 0 < 3
  ∧ length (WordLevel.batches learned (λ k, k * 7 + 2) 2 3 2 text) = 2.
Proof.
  cbn zeta. assert (0 < 2) as HB by lia. assert (0 < 3) as HS by lia.
  split; [exact HB|]. split; [exact HS|].
  destruct (word_batches_keep_every_window
              [lit "|"; lit "<newline>"; lit "ab"] (λ k, k * 7 + 2) 2 3 2
              (lit "|ab" ++ [NL] ++ lit "|cd" ++ [NL] ++ lit "|ab" ++ [NL])
              HB HS) as (_ & _ & _ & _ & H).
  rewrite H. vm_compute. reflexivity.
Defined.

(** ** Windows *)

(** X4: for a chunk of any length the two halves have one id less than
    the chunk (none for the empty chunk and for a chunk of one id), the
    target is the chunk without its first id, the input the chunk without
    its last id, and the target is the input moved by one place.  The
    function of the word notebook is the same function. *)
Theorem create_input_target_any_length {A} (ids : list A) :
  let inputs := (CharLevel.create_input_target ids).1 in
  let target := (CharLevel.create_input_target ids).2 in
  WordLevel.split_input_target ids = CharLevel.create_input_target ids
  ∧ length inputs = length ids - 1
  ∧ length target = length ids - 1
  ∧ (length ids ≤ 1 → inputs = [] ∧ target = [])
  ∧ (∀ x rest, ids = x :: rest → x :: target = ids)
  ∧ (∀ y, last ids = Some y → inputs ++ [y] = ids)
  ∧ (∀ i, target !! i = ids !! S i)
  ∧ (∀ i, S i < length ids → inputs !! i = ids !! i)
  ∧ (∀ i, S i < length inputs → target !! i = inputs !! S i).
Proof.
  cbn zeta. unfold CharLevel.create_input_target. cbn [fst snd].
  split_and!.
  - done.
  - rewrite length_take. lia.
  - rewrite length_drop. lia.
  - intros Hlen. destruct ids as [|x [|y ids]]; [done..|cbn in Hlen; lia].
  - by intros x rest ->.
  - intros y Hy. apply last_Some in Hy as [l' ->].
    rewrite length_app. cbn [length].
    replace (length l' + 1 - 1) with (length l') by lia.
    by rewrite take_app_length.
  - intros i. by rewrite lookup_drop.
  - intros i Hi. apply lookup_take_lt. lia.
  - intros i Hi. rewrite length_take in Hi.
    rewrite lookup_drop, lookup_take_lt by lia. done.
Qed.

Lemma create_input_target_any_length_witness :
  last [7; 8; 9] = Some 9
  ∧ (CharLevel.create_input_target [7; 8; 9]).1 ++ [9] = [7; 8; 9].
Proof.
  assert (last [7; 8; 9] = Some 9) as H by reflexivity.
  split; [exact H|].
  destruct (create_input_target_any_length [7; 8; 9])
    as (_ & _ & _ & _ & _ & Hl & _).
  exact (Hl 9 H).
Defined.

(** X5: there are as many windows as the stream has full blocks of
    [MAX_SEQ + 1] ids.  For a window length of at least one the windows
    hold the stream up to its last full block: the input of each window
    followed by the last id of its target, one window after the other, is
    that part of the stream, so fewer than [MAX_SEQ + 1] ids are lost.
    With the window length [0] every window is a pair of empty
    sequences. *)
Theorem windows_hold_the_full_blocks {A} (MAX_SEQ : nat) (stream : list A) :
  let windows := CharLevel.dataset MAX_SEQ stream in
  let kept := length stream / (MAX_SEQ + 1) * (MAX_SEQ + 1) in
  length windows = length stream / (MAX_SEQ + 1)
  ∧ length stream - kept < MAX_SEQ + 1
  ∧ (0 < MAX_SEQ →
       windows ≫= (λ w, w.1 ++ drop (MAX_SEQ - 1) w.2) = take kept stream)
  ∧ (MAX_SEQ = 0 →
       windows = replicate (length stream) ([], [])).
Proof.
  cbn zeta. rewrite char_dataset_blocks, Nat.add_1_r.
  pose proof (Nat.div_mod_eq (length stream) (S MAX_SEQ)) as Hdm.
  pose proof (Nat.mod_upper_bound (length stream) (S MAX_SEQ) ltac:(lia)) as Hmod.
  pose proof (batch_Forall_length MAX_SEQ stream) as Hall.
  split_and!.
  - by rewrite length_fmap, batch_length.
  - lia.
  - intros HW. rewrite <- batch_true_concat.
    induction Hall as [|b bs Hb _ IH]; [done|].
    cbn [fmap list_fmap mbind list_bind concat]. f_equal; [|exact IH].
    rewrite (create_input_target_block MAX_SEQ b Hb). cbn [fst snd].
    rewrite drop_drop. replace (1 + (MAX_SEQ - 1)) with MAX_SEQ by lia.
    apply take_drop.
  - intros ->.
    replace (length stream) with (length (Dataset.batch 1 true stream))
      by (rewrite batch_length; apply Nat.div_1_r).
    induction Hall as [|b bs Hb _ IH]; [done|].
    cbn [fmap list_fmap length replicate]. f_equal; [|exact IH].
    by destruct b as [|x [|y b]].
Qed.

Lemma windows_hold_the_full_blocks_witness :
  0 < 3
  ∧ CharLevel.dataset 3 [6; 2; 3; 1; 6; 4; 5; 1; 9; 9]
      ≫= (λ w, w.1 ++ drop (3 - 1) w.2)
    = [6; 2; 3; 1; 6; 4; 5; 1].
Proof.
  assert (0 < 3) as HW by lia. split; [exact HW|].
  destruct (windows_hold_the_full_blocks 3 [6; 2; 3; 1; 6; 4; 5; 1; 9; 9])
    as (_ & _ & H & _).
  exact (H HW).
Defined.

(** ** The character vocabulary and its ids *)

Lemma strictly_sorted_unique (l1 l2 : list N) :
  StronglySorted N.lt l1 → StronglySorted N.lt l2 →
  (∀ c, c ∈ l1 ↔ c ∈ l2) → l1 = l2.
Proof.
  intros H1 H2 Hsame.
  assert (∀ l, StronglySorted N.lt l → NoDup l) as Hnd.
  { induction 1 as [|c l _ IH Hc]; constructor; [|done].
    intros Hin. rewrite Forall_forall in Hc. specialize (Hc c Hin). lia. }
  apply (StronglySorted_unique_strong N.lt); [|done..|].
  - intros. lia.
  - apply NoDup_Permutation; auto.
Qed.

Lemma StronglySorted_filter (P : N → Prop) `{∀ c, Decision (P c)} (l : list N) :
  StronglySorted N.lt l → StronglySorted N.lt (filter P l).
Proof.
  induction 1 as [|c l _ IH Hc]; [constructor|].
  rewrite filter_cons. case_decide; [|done].
  constructor; [done|]. rewrite Forall_forall in Hc |- *.
  intros x [_ Hx]%list_elem_of_filter. by apply Hc.
Qed.

Lemma filter_fmap_singleton (P : list N → Prop) `{∀ t, Decision (P t)}
    (l : list N) :
  filter P ((λ c, [c]) <$> l) = (λ c, [c]) <$> filter (λ c, P [c]) l.
Proof.
  induction l as [|c l IH]; [done|].
  cbn [fmap list_fmap]. rewrite !filter_cons, IH. by case_decide.
Qed.

Lemma vocabulary_same_chars (text text' : str) :
  (∀ c, c ∈ text ↔ c ∈ text') →
  CharLevel.vocabulary text = CharLevel.vocabulary text'.
Proof.
  intros Hsame. unfold CharLevel.vocabulary. f_equal.
  destruct (sorted_chars text) as (Hs & _ & Hin).
  destruct (sorted_chars text') as (Hs' & _ & Hin').
  apply strictly_sorted_unique; [done..|].
  intros c. by rewrite Hin, Hin', Hsame.
Qed.

(** X6: the vocabulary depends on which characters the text has, not on
    their order nor on how often they come: two texts with the same
    characters have the same vocabulary, hence the same ids.  Removing the
    zero-width non-joiners from the text takes that one token, and no
    other, out of the vocabulary. *)
Theorem vocabulary_depends_on_the_characters_only :
  (∀ text text' : str,
     (∀ c, c ∈ text ↔ c ∈ text') →
     CharLevel.vocabulary text = CharLevel.vocabulary text'
     ∧ ∀ t, CharLevel.char_to_ids (CharLevel.vocabulary text) t
            = CharLevel.char_to_ids (CharLevel.vocabulary text') t)
  ∧ (∀ text1 text2 : str,
       CharLevel.vocabulary (text1 ++ text2) = CharLevel.vocabulary (text2 ++ text1)
       ∧ CharLevel.vocabulary (text1 ++ text1) = CharLevel.vocabulary text1
       ∧ CharLevel.vocabulary (reverse text1) = CharLevel.vocabulary text1)
  ∧ (∀ text : str,
       CharLevel.vocabulary (CharLevel.preprocess text)
       = filter (λ t, t ≠ [ZWNJ]) (CharLevel.vocabulary text)).
Proof.
  split_and!.
  - intros text text' Hsame.
    rewrite (vocabulary_same_chars text text' Hsame). done.
  - intros text1 text2. split_and!; apply vocabulary_same_chars; intros c.
    + rewrite !elem_of_app. tauto.
    + rewrite !elem_of_app. tauto.
    + by rewrite elem_of_reverse.
  - intros text. unfold CharLevel.vocabulary.
    destruct (sorted_chars text) as (Hs & _ & Hin).
    destruct (sorted_chars (CharLevel.preprocess text)) as (Hs' & _ & Hin').
    rewrite filter_fmap_singleton.
    f_equal. apply strictly_sorted_unique.
    + done.
    + by apply StronglySorted_filter.
    + intros c. rewrite Hin', preprocess_elem_of, list_elem_of_filter, Hin.
      cbn. split.
      * intros [H1 H2]. split; [|done]. by intros [= ->].
      * intros [H1 H2]. split; [done|]. by intros ->.
Qed.

Lemma vocabulary_depends_on_the_characters_only_witness :
  (∀ c, c ∈ lit "abba" ↔ c ∈ lit "ab")
  ∧ CharLevel.vocabulary (lit "abba") = CharLevel.vocabulary (lit "ab").
Proof.
  assert (∀ c, c ∈ lit "abba" ↔ c ∈ lit "ab") as Hsame.
  { intros c. change (lit "abba") with ([97; 98; 98; 97]%N).
    change (lit "ab") with ([97; 98]%N).
    rewrite !elem_of_cons, !elem_of_nil. tauto. }
  split; [exact Hsame|].
  destruct vocabulary_depends_on_the_characters_only as (H & _).
  exact (proj1 (H _ _ Hsame)).
Defined.








(** ** The tokens of the word notebook *)

Section Tokens.
Implicit Types (text word rewrite : str) (c x : char).

Lemma regex_replace_char_cons c rewrite x text :
  regex_replace_char c rewrite (x :: text)
  = (if decide (x = c) then rewrite else [x])
    ++ regex_replace_char c rewrite text.
Proof. done. Qed.

Lemma regex_replace_char_app c rewrite text1 text2 :
  regex_replace_char c rewrite (text1 ++ text2)
  = regex_replace_char c rewrite text1 ++ regex_replace_char c rewrite text2.
Proof. apply bind_app. Qed.

Lemma custom_standardization_cons c text :
  WordLevel.custom_standardization (c :: text)
  = standardized_char c ++ WordLevel.custom_standardization text.
Proof.
  unfold WordLevel.custom_standardization, standardized_char. cbn zeta.
  rewrite regex_replace_char_cons, !regex_replace_char_app.
  destruct (decide (c = ZWNJ)) as [->|H1]; [done|].
  rewrite (regex_replace_char_cons PIPE _ c []).
  destruct (decide (c = PIPE)) as [->|H2]; [done|].
  cbn [app]. rewrite (regex_replace_char_cons NL _ c []).
  destruct (decide (c = NL)) as [->|H3]; done.
Qed.
End Tokens.

Section TokenFacts.
Implicit Types (text word : str) (c : char) (t : token).

Lemma split_go_space word c text :
  WordLevel.is_space c = true →
  WordLevel.split_go word (c :: text) = flush word ++ WordLevel.split_go [] text.
Proof.
  intros Hc. cbn [WordLevel.split_go]. rewrite Hc. unfold flush.
  by case_bool_decide.
Qed.

Lemma split_go_letter word c text :
  WordLevel.is_space c = false →
  WordLevel.split_go word (c :: text) = WordLevel.split_go (word ++ [c]) text.
Proof. intros Hc. cbn [WordLevel.split_go]. by rewrite Hc. Qed.

(** The tokens of a standardized text, character by character of the
    text as it was. *)
Lemma split_go_standardized word c text :
  WordLevel.split_go word (WordLevel.custom_standardization (c :: text))
  = let rest := WordLevel.custom_standardization text in
    if decide (c = ZWNJ) then WordLevel.split_go word rest
    else if decide (c = PIPE)
      then flush word ++ [PIPE] :: WordLevel.split_go [] rest
    else if decide (c = NL)
      then flush word ++ lit "<newline>" :: WordLevel.split_go [] rest
    else if WordLevel.is_space c
      then flush word ++ WordLevel.split_go [] rest
    else WordLevel.split_go (word ++ [c]) rest.
Proof.
  rewrite custom_standardization_cons. unfold standardized_char. cbn zeta.
  destruct (decide (c = ZWNJ)) as [->|H1]; [done|].
  destruct (decide (c = PIPE)) as [->|H2].
  { change (lit " | ") with [32; 124; 32]%N. cbn [app].
    rewrite split_go_space by done. rewrite split_go_letter by done.
    by rewrite split_go_space by done. }
  destruct (decide (c = NL)) as [->|H3].
  { change (lit " <newline> ")
      with (32 :: (lit "<newline>" ++ [32]))%N.
    cbn [app]. rewrite split_go_space by done. by f_equal. }
  cbn [app]. destruct (WordLevel.is_space c) eqn:Hc.
  - by apply split_go_space.
  - by apply split_go_letter.
Qed.
End TokenFacts.

Section TokenInvariants.
Implicit Types (text word : str) (c : char) (t : token).

Lemma flush_ok word : Forall clean word → Forall token_ok (flush word).
Proof.
  intros Hw. unfold flush. case_bool_decide; [constructor|].
  apply Forall_singleton. split; [done | by right].
Qed.

Lemma newline_token_ok : token_ok (lit "<newline>").
Proof.
  split; [done|]. right.
  change (lit "<newline>") with [60; 110; 101; 119; 108; 105; 110; 101; 62]%N.
  repeat constructor; done.
Qed.

Lemma split_go_tokens_ok word text :
  Forall clean word →
  Forall token_ok
    (WordLevel.split_go word (WordLevel.custom_standardization text)).
Proof.
  revert word. induction text as [|c text IH]; intros word Hw.
  - by apply flush_ok.
  - rewrite split_go_standardized. cbn zeta.
    repeat case_decide.
    + by apply IH.
    + apply Forall_app. split; [by apply flush_ok|].
      constructor; [|by apply IH]. split; [done | by left].
    + apply Forall_app. split; [by apply flush_ok|].
      constructor; [apply newline_token_ok | by apply IH].
    + destruct (WordLevel.is_space c) eqn:Hc.
      * apply Forall_app. split; [by apply flush_ok | by apply IH].
      * apply IH. apply Forall_app. split; [done|].
        by apply Forall_singleton.
Qed.

Lemma flush_not_pipe word :
  Forall clean word → filter (λ t, t = [PIPE]) (flush word) = [].
Proof.
  intros Hw. unfold flush. case_bool_decide; [done|].
  rewrite filter_cons, decide_False; [done|]. intros ->.
  apply Forall_singleton in Hw as (_ & _ & Hp). done.
Qed.

Lemma split_go_count_pipes word text :
  Forall clean word →
  length (filter (λ t, t = [PIPE])
            (WordLevel.split_go word (WordLevel.custom_standardization text)))
  = length (filter (λ c, c = PIPE) text).
Proof.
  revert word. induction text as [|c text IH]; intros word Hw.
  - change (WordLevel.split_go word (WordLevel.custom_standardization []))
      with (flush word).
    by rewrite (flush_not_pipe word Hw).
  - rewrite split_go_standardized. cbn zeta. rewrite (filter_cons _ c).
    destruct (decide (c = ZWNJ)) as [->|H1].
    { rewrite decide_False by done. by apply IH. }
    destruct (decide (c = PIPE)) as [->|H2].
    { rewrite filter_app, flush_not_pipe by done.
      rewrite filter_cons, decide_True by done. cbn [app length].
      f_equal. by apply IH. }
    destruct (decide (c = NL)) as [->|H3].
    { rewrite filter_app, flush_not_pipe by done.
      rewrite filter_cons, decide_False by done. by apply IH. }
    destruct (WordLevel.is_space c) eqn:Hc.
    + rewrite filter_app, flush_not_pipe by done. by apply IH.
    + apply IH. apply Forall_app. split; [done|]. by apply Forall_singleton.
Qed.

Lemma split_go_count_newlines word text :
  length (filter (λ c, c = NL) text)
  ≤ length (filter (λ t, t = lit "<newline>")
              (WordLevel.split_go word (WordLevel.custom_standardization text))).
Proof.
  revert word. induction text as [|c text IH]; intros word; [cbn; lia|].
  rewrite split_go_standardized. cbn zeta. rewrite (filter_cons _ c).
  destruct (decide (c = ZWNJ)) as [->|H1].
  { rewrite decide_False by done. apply IH. }
  destruct (decide (c = PIPE)) as [->|H2].
  { rewrite decide_False by done. rewrite filter_app, length_app.
    rewrite filter_cons, decide_False by done. specialize (IH []). lia. }
  destruct (decide (c = NL)) as [->|H3].
  { rewrite filter_app, length_app.
    rewrite filter_cons, decide_True by done. cbn [length].
    specialize (IH []). lia. }
  destruct (WordLevel.is_space c) eqn:Hc.
  - rewrite filter_app, length_app. specialize (IH []). lia.
  - apply IH.
Qed.

(** X9: the tokens the word notebook reads from a text are never empty
    and have no white space and no zero-width non-joiner in them; the
    line delimiter is always a token of its own, one for each [|] of the
    text, and each line break of the text gives a newline token. *)
Theorem word_tokens_are_well_formed (text : str) :
  let tokens := WordLevel.split (WordLevel.custom_standardization text) in
  Forall (λ t, t ≠ []
              ∧ Forall (λ c, WordLevel.is_space c = false ∧ c ≠ ZWNJ) t
              ∧ (PIPE ∈ t → t = [PIPE])) tokens
  ∧ length (filter (λ t, t = [PIPE]) tokens)
    = length (filter (λ c, c = PIPE) text)
  ∧ length (filter (λ c, c = NL) text)
    ≤ length (filter (λ t, t = lit "<newline>") tokens).
Proof.
  cbn zeta. unfold WordLevel.split. split_and!.
  - eapply Forall_impl; [apply (split_go_tokens_ok [] text); constructor|].
    intros t [Hne [->|Hclean]].
    + split_and!; [done| |done]. by repeat constructor.
    + split_and!; [done| |].
      * eapply Forall_impl; [exact Hclean|]. by intros c (? & ? & ?).
      * intros Hp. rewrite Forall_forall in Hclean.
        by destruct (Hclean PIPE Hp) as (_ & _ & ?).
  - apply split_go_count_pipes. constructor.
  - apply split_go_count_newlines.
Qed.
End TokenInvariants.

(** ** The ids of the word notebook *)

(** X10: every id of the word lookup is an index of its vocabulary.  A
    token that is not empty never gets the id [0] of the padding token, it
    gets the id [1] of the unknown token exactly when it is not among the
    learned tokens, and two tokens with the same id are equal as soon as
    one of them is a learned token.  So [text_vec] gives one id for each
    token of the text and never the padding id. *)
Theorem word_ids_are_in_range :
  (∀ (learned : list token) (t : token),
     (0 ≤ WordLevel.lookup learned t
      < Z.of_nat (WordLevel.vocabulary_size learned))%Z)
  ∧ (∀ (learned : list token) (t : token),
       t ≠ [] →
       WordLevel.lookup learned t ≠ 0%Z
       ∧ (WordLevel.lookup learned t = 1%Z ↔ t ∉ learned))
  ∧ (∀ (learned : list token) (t t' : token),
       t ≠ [] → t ∈ learned →
       WordLevel.lookup learned t = WordLevel.lookup learned t' → t = t')
  ∧ (∀ (learned : list token) (text : str),
       let tokens := WordLevel.split (WordLevel.custom_standardization text) in
       let ids := WordLevel.text_vec learned text in
       length ids = length tokens
       ∧ Forall (λ i, 1 ≤ i < Z.of_nat (WordLevel.vocabulary_size learned))%Z
           ids).
Proof.
  assert (∀ (learned : list token) (t : token),
    (0 ≤ WordLevel.lookup learned t
     < Z.of_nat (WordLevel.vocabulary_size learned))%Z) as Hrange.
  { intros learned t. unfold WordLevel.vocabulary_size, WordLevel.get_vocabulary.
    cbn [length]. destruct (decide (t = [])) as [->|Hne].
    { unfold WordLevel.lookup. rewrite decide_True by done. lia. }
    destruct (decide (t ∈ learned)) as [Hin|Hin].
    - destruct (word_lookup_elem_of _ _ Hne Hin) as (i & -> & Hi).
      apply lookup_lt_Some in Hi. lia.
    - rewrite word_lookup_not_elem_of by done. lia. }
  assert (∀ (learned : list token) (t : token), t ≠ [] →
    WordLevel.lookup learned t ≠ 0%Z
    ∧ (WordLevel.lookup learned t = 1%Z ↔ t ∉ learned)) as Hone.
  { intros learned t Hne. destruct (decide (t ∈ learned)) as [Hin|Hin].
    - destruct (word_lookup_elem_of _ _ Hne Hin) as (i & -> & Hi).
      split; [lia|]. split; [lia | done].
    - rewrite word_lookup_not_elem_of by done. done. }
  split_and!.
  - exact Hrange.
  - exact Hone.
  - intros learned t t' Hne Hin Heq.
    destruct (word_lookup_elem_of _ _ Hne Hin) as (i & Hi & Hti).
    destruct (decide (t' = [])) as [->|Hne'].
    { rewrite Hi in Heq. unfold WordLevel.lookup in Heq.
      rewrite decide_True in Heq by done. lia. }
    destruct (decide (t' ∈ learned)) as [Hin'|Hin'].
    + destruct (word_lookup_elem_of _ _ Hne' Hin') as (j & Hj & Htj).
      assert (i = j) as -> by lia. congruence.
    + rewrite (word_lookup_not_elem_of _ _ Hne' Hin') in Heq. lia.
  - intros learned text. cbn zeta. unfold WordLevel.text_vec.
    split; [by rewrite length_fmap|].
    apply Forall_fmap.
    eapply Forall_impl; [apply split_nonempty|].
    intros t Hne. pose proof (Hrange learned t) as Hr.
    destruct (Hone learned t Hne) as [H0 _]. unfold compose. lia.
Qed.

Lemma word_ids_are_in_range_witness :
  let learned := [lit "|"; lit "<newline>"; lit "ab"] in
  lit "cd" ≠ []
  ∧ WordLevel.lookup learned (lit "cd") ≠ 0%Z.
Proof.
  cbn zeta. assert (lit "cd" ≠ []) as Hne by done.
  split; [exact Hne|].
  destruct word_ids_are_in_range as (_ & H & _).
  exact (proj1 (H [lit "|"; lit "<newline>"; lit "ab"] (lit "cd") Hne)).
Defined.

(** ** Decoding in the word notebook *)

Section WordDecode.
Implicit Types (learned : list token) (ids : list token_id).

Lemma list_getitem_in_range {A} (l : list A) (idx : token_id) :
  (- Z.of_nat (length l) ≤ idx < Z.of_nat (length l))%Z →
  ∃ a, WordLevel.list_getitem l idx = Returned a.
Proof.
  intros Hi. unfold WordLevel.list_getitem. cbn zeta.
  destruct (decide (idx < 0)%Z) as [Hneg|Hpos].
  - destruct (decide _) as [_|Hout]; [|lia].
    destruct (lookup_lt_is_Some_2 l (Z.to_nat (Z.of_nat (length l) + idx)))
      as [a ->]; [lia|]. eauto.
  - destruct (decide _) as [_|Hout]; [|lia].
    destruct (lookup_lt_is_Some_2 l (Z.to_nat idx)) as [a ->]; [lia|]. eauto.
Qed.

Lemma list_getitem_out_of_range {A} (l : list A) (idx : token_id) :
  ¬ (- Z.of_nat (length l) ≤ idx < Z.of_nat (length l))%Z →
  WordLevel.list_getitem l idx = Raised IndexError.
Proof.
  intros Hi. unfold WordLevel.list_getitem. cbn zeta.
  destruct (decide (idx < 0)%Z) as [Hneg|Hpos];
    (destruct (decide _) as [Hin|_]; [lia | done]).
Qed.

Lemma list_getitem_negative {A} (l : list A) (idx : token_id) :
  (- Z.of_nat (length l) ≤ idx < 0)%Z →
  WordLevel.list_getitem l idx
  = WordLevel.list_getitem l (Z.of_nat (length l) + idx).
Proof.
  intros Hi. unfold WordLevel.list_getitem. cbn zeta.
  destruct (decide (idx < 0)%Z) as [_|Hpos]; [|lia].
  destruct (decide (Z.of_nat (length l) + idx < 0)%Z) as [Hneg|_]; [lia|].
  done.
Qed.

Lemma mapM_getitem_in_range {A} (l : list A) ids :
  Forall (λ i, - Z.of_nat (length l) ≤ i < Z.of_nat (length l))%Z ids →
  ∃ xs, mapM (WordLevel.list_getitem l) ids = Returned xs
        ∧ length xs = length ids.
Proof.
  induction 1 as [|i ids Hi _ (xs & IH & Hlen)]; [by exists []|].
  destruct (list_getitem_in_range l i Hi) as [a Ha].
  exists (a :: xs). cbn. rewrite Ha. cbn. rewrite IH. cbn.
  by rewrite Hlen.
Qed.

Lemma mapM_getitem_out_of_range {A} (l : list A) ids :
  ¬ Forall (λ i, - Z.of_nat (length l) ≤ i < Z.of_nat (length l))%Z ids →
  mapM (WordLevel.list_getitem l) ids = Raised IndexError.
Proof.
  induction ids as [|i ids IH]; intros Hnot; [by destruct Hnot|].
  cbn. destruct (decide (- Z.of_nat (length l) ≤ i < Z.of_nat (length l))%Z)
    as [Hi|Hi].
  - destruct (list_getitem_in_range l i Hi) as [a ->]. cbn.
    rewrite IH; [done|]. intros Hall. apply Hnot. by constructor.
  - by rewrite list_getitem_out_of_range.
Qed.
End WordDecode.

(** X11: [ids_to_text] of the word notebook returns a text when every id
    is an index of the vocabulary list, counted from the front
    ([0 .. n-1]) or, negative, from the back ([-n .. -1]); with any other
    id it raises [IndexError].  A negative id stands for the id [n] above
    it; the padding id gives the empty text and the unknown id the text
    [[UNK]]. *)
Theorem word_ids_to_text_bounds (learned : list token) :
  let n := Z.of_nat (WordLevel.vocabulary_size learned) in
  (∀ ids : list token_id,
     Forall (λ i, - n ≤ i < n)%Z ids →
     ∃ text, WordLevel.ids_to_text learned ids = Returned text)
  ∧ (∀ ids : list token_id,
       ¬ Forall (λ i, - n ≤ i < n)%Z ids →
       WordLevel.ids_to_text learned ids = Raised IndexError)
  ∧ (∀ i : token_id,
       (- n ≤ i < 0)%Z →
       WordLevel.ids_to_text learned [i]
       = WordLevel.ids_to_text learned [(n + i)%Z])
  ∧ WordLevel.ids_to_text learned [] = Returned []
  ∧ WordLevel.ids_to_text learned [0%Z] = Returned []
  ∧ WordLevel.ids_to_text learned [1%Z] = Returned UNK.
Proof.
  cbn zeta. unfold WordLevel.vocabulary_size. split_and!.
  - intros ids Hall. unfold WordLevel.ids_to_text.
    destruct (mapM_getitem_in_range _ _ Hall) as (xs & -> & _). by eexists.
  - intros ids Hnot. unfold WordLevel.ids_to_text.
    by rewrite mapM_getitem_out_of_range.
  - intros i Hi. unfold WordLevel.ids_to_text. cbn [mapM].
    by rewrite list_getitem_negative.
  - done.
  - unfold WordLevel.ids_to_text. cbn [mapM].
    by rewrite (list_getitem_lookup _ 0 []).
  - unfold WordLevel.ids_to_text. cbn [mapM].
    by rewrite (list_getitem_lookup _ 1 UNK).
Qed.

Lemma word_ids_to_text_bounds_witness :
  let learned := [lit "|"; lit "<newline>"; lit "ab"] in
  (- Z.of_nat (WordLevel.vocabulary_size learned) ≤ -1 < 0)%Z
  ∧ WordLevel.ids_to_text learned [(-1)%Z]
    = WordLevel.ids_to_text learned [4%Z].
Proof.
  cbn zeta.
  assert (- Z.of_nat (WordLevel.vocabulary_size
                        [lit "|"; lit "<newline>"; lit "ab"]) ≤ -1 < 0)%Z
    as Hi by (vm_compute; split; congruence).
  split; [exact Hi|].
  destruct (word_ids_to_text_bounds [lit "|"; lit "<newline>"; lit "ab"])
    as (_ & _ & H & _).
  exact (H (-1)%Z Hi).
Defined.

(** ** The generation loops *)

Section GenerationFacts.
Variable net : Layers.
Variable rnd : Random.

Lemma invert_in_get_vocabulary (vocabulary : list token) (i : token_id) :
  StringLookup.invert vocabulary i ∈ StringLookup.get_vocabulary vocabulary.
Proof.
  unfold StringLookup.invert, StringLookup.get_vocabulary.
  case_decide; [|by left].
  destruct (vocabulary !! _) as [t|] eqn:Ht; cbn; [|by left].
  right. by eapply list_elem_of_lookup_2.
Qed.

Lemma char_step_token self inputs states g t states' g' :
  CharLevel.generate_one_step net rnd self inputs states g
    = Returned (t, states', g') →
  t ∈ StringLookup.get_vocabulary (vocab self).
Proof.
  unfold CharLevel.generate_one_step. cbn zeta.
  destruct (MyModel_call net _ states) as [predicted states1].
  destruct (last predicted) as [scores|]; [|done].
  destruct (categorical rnd _ g) as [predicted_id g1].
  intros [= <- _ _]. apply invert_in_get_vocabulary.
Qed.

Lemma char_loop_structure self n next_char states g result res g' :
  CharLevel.generate_loop net rnd self n next_char states g result
    = Returned (res, g') →
  ∃ tokens, length tokens = n
            ∧ Forall (λ t, t ∈ StringLookup.get_vocabulary (vocab self)) tokens
            ∧ res = result ++ tokens.
Proof.
  revert next_char states g result.
  induction n as [|n IH]; intros next_char states g result.
  - intros [= <- _]. exists []. by rewrite (right_id_L [] (++)).
  - cbn [CharLevel.generate_loop].
    destruct (CharLevel.generate_one_step _ _ _ _ _ _) as [[[t s] g1]|e]
      eqn:Hstep; [|done].
    cbn [mbind outcome_bind]. intros Hloop.
    apply IH in Hloop as (tokens & Hlen & Hall & ->).
    exists (t :: tokens). split_and!.
    + cbn. by rewrite Hlen.
    + constructor; [by eapply char_step_token | done].
    + by rewrite <-(assoc_L (++)).
Qed.

Lemma word_decoded_token learned i w :
  WordLevel.ids_to_text learned [i] = Returned w →
  ∃ t, t ∈ WordLevel.get_vocabulary learned
       ∧ w = regex_replace (lit "<newline>") [NL] t.
Proof.
  unfold WordLevel.ids_to_text. cbn [mapM].
  destruct (WordLevel.list_getitem _ i) as [t|e] eqn:Ht; [|done].
  cbn. intros [= <-]. exists t. split; [|done].
  revert Ht. unfold WordLevel.list_getitem. cbn zeta.
  repeat case_decide; try done;
    (destruct (_ !! _) as [t'|] eqn:Hl; [|done]); intros [= <-];
    by eapply list_elem_of_lookup_2.
Qed.

Lemma word_loop_structure self n next_char states g result res g' :
  WordLevel.generate_loop net rnd self n next_char states g result
    = Returned (res, g') →
  ∃ words, length words = n
           ∧ Forall (λ w, ∃ t, t ∈ WordLevel.get_vocabulary (vocab self)
                               ∧ w = regex_replace (lit "<newline>") [NL] t)
               words
           ∧ res = result ++ words.
Proof.
  revert next_char states g result.
  induction n as [|n IH]; intros next_char states g result.
  - intros [= <- _]. exists []. by rewrite (right_id_L [] (++)).
  - cbn [WordLevel.generate_loop].
    destruct (WordLevel.generate_one_step _ _ _ _ _ _) as [[[i s] g1]|e]
      eqn:Hstep; [|done].
    cbn [mbind outcome_bind].
    destruct (WordLevel.ids_to_text _ _) as [w|e] eqn:Hw; [|done].
    cbn [mbind outcome_bind]. intros Hloop.
    apply IH in Hloop as (words & Hlen & Hall & ->).
    exists (w :: words). split_and!.
    + cbn. by rewrite Hlen.
    + constructor; [by eapply word_decoded_token | done].
    + by rewrite <-(assoc_L (++)).
Qed.
End GenerationFacts.

(** X12: the text a run of the character notebook returns is the seed
    text followed by one token of the lookup layer's vocabulary (a
    character of the vocabulary or [[UNK]]) for each step of the loop, and
    a run that does not return raises [InvalidArgumentError], whatever the
    network and the random draws are. *)
Theorem char_generated_text_structure (net : Layers) (rnd : Random)
    (vocabulary : list token) (T : fp) (n : nat) (seed_text : str)
    (g : Rng rnd) :
  (∀ text g',
     CharLevel.run net rnd vocabulary T n seed_text g = Returned (text, g') →
     ∃ tokens, length tokens = n
               ∧ Forall (λ t, t ∈ StringLookup.get_vocabulary vocabulary) tokens
               ∧ text = seed_text ++ join tokens)
  ∧ (∀ e, CharLevel.run net rnd vocabulary T n seed_text g = Raised e →
          e = InvalidArgumentError).
Proof.
  unfold CharLevel.run. rewrite char_init_returns. cbn [mbind outcome_bind].
  unfold CharLevel.generate. split.
  - intros text g'.
    destruct (CharLevel.generate_loop _ _ _ _ _ _ _ _) as [[res g1]|e]
      eqn:Hloop; [|done].
    cbn. intros [= <- <-].
    apply char_loop_structure in Hloop as (tokens & Hlen & Hall & ->).
    exists tokens. split_and!; [done | done |].
    unfold join. rewrite concat_app. cbn [concat].
    by rewrite (right_id_L [] (++)).
  - intros e.
    destruct (CharLevel.generate_loop _ _ _ _ _ _ _ _) as [[res g1]|e']
      eqn:Hloop; [done|].
    cbn. intros [= <-]. by eapply char_loop_raises.
Qed.

Lemma char_generated_text_structure_witness :
  let vocabulary := CharLevel.vocabulary (lit "ab") in
  ∃ tokens, length tokens = 2
            ∧ Forall (λ t, t ∈ StringLookup.get_vocabulary vocabulary) tokens
            ∧ lit "abaa" = lit "ab" ++ join tokens.
Proof.
  cbn zeta.
  apply (proj1 (char_generated_text_structure constant_net first_finite
                  (CharLevel.vocabulary (lit "ab")) (Fin 1) 2 (lit "ab") tt)
           (lit "abaa") tt).
  by vm_compute.
Defined.

(** X13: the text a run of the word notebook returns is the seed text and
    then, for each step of the loop, one entry of the layer's vocabulary
    with [<newline>] written as a line break, all joined by single spaces;
    a run that does not return raises [InvalidArgumentError] or
    [IndexError]. *)
Theorem word_generated_text_structure (net : Layers) (rnd : Random)
    (learned : list token) (T : fp) (n : nat) (seed_text : str)
    (g : Rng rnd) :
  (∀ text g',
     WordLevel.run net rnd learned T n seed_text g = Returned (text, g') →
     ∃ words, length words = n
              ∧ Forall (λ w, ∃ t, t ∈ WordLevel.get_vocabulary learned
                                  ∧ w = regex_replace (lit "<newline>") [NL] t)
                  words
              ∧ text = WordLevel.reduce_join (lit " ") (seed_text :: words))
  ∧ (∀ e, WordLevel.run net rnd learned T n seed_text g = Raised e →
          e = InvalidArgumentError ∨ e = IndexError).
Proof.
  unfold WordLevel.run. rewrite word_init_returns. cbn [mbind outcome_bind].
  unfold WordLevel.generate. split.
  - intros text g'.
    destruct (WordLevel.generate_loop _ _ _ _ _ _ _ _) as [[res g1]|e]
      eqn:Hloop; [|done].
    cbn [mbind outcome_bind mret outcome_ret fst snd]. intros [= <- <-].
    apply word_loop_structure in Hloop as (words & Hlen & Hall & ->).
    by exists words.
  - intros e.
    destruct (WordLevel.generate_loop _ _ _ _ _ _ _ _) as [[res g1]|e']
      eqn:Hloop; [done|].
    cbn. intros [= <-]. by eapply word_loop_raises.
Qed.

Lemma word_generated_text_structure_witness :
  let learned := [lit "|"] in
  ∃ words, length words = 1
           ∧ Forall (λ w, ∃ t, t ∈ WordLevel.get_vocabulary learned
                               ∧ w = regex_replace (lit "<newline>") [NL] t)
               words
           ∧ lit "| " = WordLevel.reduce_join (lit " ") (lit "|" :: words).
Proof.
  cbn zeta.
  apply (proj1 (word_generated_text_structure constant_net first_finite
                  [lit "|"] (Fin 1) 1 (lit "|") tt)
           (lit "| ") tt).
  by vm_compute.
Defined.

(** ** Runs on a network that gives one score vector for each position *)

Section WellShapedNetwork.
Variable net : Layers.
Variable rnd : Random.
Hypothesis one_vector_per_position : ∀ ids s,
  length (dense net (gru net (embedding net ids) s).1) = length ids.

Lemma MyModel_call_length ids states :
  length (MyModel_call net ids states).1 = length ids.
Proof.
  unfold MyModel_call. cbn zeta.
  match goal with |- context [gru net ?x ?s] =>
    pose proof (one_vector_per_position ids s) as Hlen;
    destruct (gru net x s) as [x' s'] end.
  done.
Qed.

Lemma last_None_length {A} (l : list A) : last l = None ↔ length l = 0.
Proof. rewrite last_None. by destruct l. Qed.


Lemma char_step_empty self states g :
  CharLevel.generate_one_step net rnd self [] states g
  = Raised InvalidArgumentError.
Proof.
  unfold CharLevel.generate_one_step. cbn zeta.
  pose proof (MyModel_call_length (CharLevel.input_ids self []) states)
    as Hlen.
  destruct (MyModel_call net _ states) as [predicted states1].
  cbn in Hlen. apply last_None_length in Hlen. by rewrite Hlen.
Qed.

Lemma word_step_empty self inputs states g :
  WordLevel.split (WordLevel.custom_standardization inputs) = [] →
  WordLevel.generate_one_step net rnd self inputs states g
  = Raised InvalidArgumentError.
Proof.
  intros Hno. unfold WordLevel.generate_one_step. cbn zeta.
  pose proof (MyModel_call_length (WordLevel.input_ids self inputs) states)
    as Hlen.
  destruct (MyModel_call net _ states) as [predicted states1].
  unfold WordLevel.input_ids, WordLevel.text_vec in Hlen.
  rewrite Hno in Hlen. cbn in Hlen.
  apply last_None_length in Hlen. by rewrite Hlen.
Qed.

End WellShapedNetwork.




(** X15: a step on an input without any token has no score vector to
    draw from.  On a network that gives one score vector for each input
    position, a run of one step or more raises [InvalidArgumentError] when
    the seed text is empty (character notebook) or holds nothing but
    zero-width non-joiners and white space other than line breaks (word
    notebook; a line break is the token [<newline>]). *)
Theorem run_on_empty_input_raises (net : Layers) (rnd : Random)
    (T : fp) (n : nat) (g : Rng rnd) :
  (∀ ids s, length (dense net (gru net (embedding net ids) s).1) = length ids) →
  (∀ vocabulary,
     CharLevel.run net rnd vocabulary T (S n) [] g = Raised InvalidArgumentError)
  ∧ (∀ learned seed_text,
       Forall (λ c, c = ZWNJ ∨ (WordLevel.is_space c = true ∧ c ≠ NL))
         seed_text →
       WordLevel.run net rnd learned T (S n) seed_text g
       = Raised InvalidArgumentError).
Proof.
  intros Hnet. split.
  - intros vocabulary. unfold CharLevel.run.
    rewrite char_init_returns. cbn [mbind outcome_bind].
    unfold CharLevel.generate. cbn [CharLevel.generate_loop].
    by rewrite char_step_empty.
  - intros learned seed_text Hblank. unfold WordLevel.run.
    rewrite word_init_returns. cbn [mbind outcome_bind].
    unfold WordLevel.generate. cbn [WordLevel.generate_loop].
    rewrite word_step_empty; [done | done |].
    unfold WordLevel.split.
    induction Hblank as [|c text Hc _ IH]; [done|].
    rewrite split_go_standardized. cbn zeta.
    destruct (decide (c = ZWNJ)) as [->|Hz]; [done|].
    destruct Hc as [Hc | [Hc Hnl]]; [done|].
    destruct (decide (c = PIPE)) as [->|_]; [by vm_compute in Hc|].
    destruct (decide (c = NL)) as [->|_]; [done|].
    by rewrite Hc.
Qed.

Lemma run_on_empty_input_raises_witness :
  WordLevel.run constant_net first_finite [lit "|"] (Fin 1) 1 (lit " ") tt
  = Raised InvalidArgumentError.
Proof.
  refine (proj2 (run_on_empty_input_raises constant_net first_finite
                   (Fin 1) 0 tt _) [lit "|"] (lit " ") _).
  - intros ids s. cbn. by rewrite length_fmap.
  - constructor; [|constructor].
    right. by vm_compute.
Defined.

(** ** Feeding a drawn word back *)

Section FeedBack.
Implicit Types (learned : list token) (t word : token).

Lemma regex_replace_no_match (pat rewrite t : str) :
  (∀ l1 l2, t ≠ l1 ++ pat ++ l2) →
  regex_replace pat rewrite t = t.
Proof.
  unfold regex_replace. induction t as [|c t IH]; intros Hno; [done|].
  cbn [regex_replace_go]. case_bool_decide as Hmatch.
  - destruct Hmatch as [_ [k Hk]]. destruct (Hno [] k). by rewrite Hk.
  - f_equal. apply IH. intros l1 l2 ->. by destruct (Hno (c :: l1) l2).
Qed.

Lemma split_go_clean word t :
  Forall (λ c, WordLevel.is_space c = false ∧ c ≠ ZWNJ ∧ c ≠ PIPE) t →
  WordLevel.split_go word (WordLevel.custom_standardization t)
  = flush (word ++ t).
Proof.
  intros Hclean. revert word.
  induction Hclean as [|c t (Hsp & Hz & Hp) _ IH]; intros word.
  { by rewrite (right_id_L [] (++)). }
  rewrite split_go_standardized. cbn zeta.
  destruct (decide (c = ZWNJ)) as [|_]; [done|].
  destruct (decide (c = PIPE)) as [|_]; [done|].
  destruct (decide (c = NL)) as [->|_]; [by vm_compute in Hsp|].
  rewrite Hsp, IH. by rewrite <-(assoc_L (++)).
Qed.

Lemma well_formed_token_split t :
  t ≠ [] →
  Forall (λ c, WordLevel.is_space c = false ∧ c ≠ ZWNJ) t →
  (PIPE ∈ t → t = [PIPE]) →
  WordLevel.split (WordLevel.custom_standardization t) = [t].
Proof.
  intros Hne Hclean Hpipe. destruct (decide (PIPE ∈ t)) as [Hin|Hnotin].
  { by rewrite (Hpipe Hin). }
  unfold WordLevel.split. rewrite split_go_clean.
  - unfold flush. cbn [app]. by rewrite bool_decide_eq_false_2.
  - apply Forall_forall. intros c Hc.
    pose proof (proj1 (Forall_forall _ _) Hclean c Hc) as [Hsp Hz].
    split_and!; [done | done |]. by intros ->.
Qed.
End FeedBack.

(** X16: what the loop of the word notebook reads back from its own
    output.  The text of a drawn learned token gives, through [text_vec],
    the id that was drawn and nothing else, when the token is as the
    tokenizer makes them (not empty, without white space or zero-width
    non-joiner, a vertical bar only alone), no token is learned twice and
    [<newline>] occurs in the token only as the whole token.  The text of
    the unknown token gives the unknown id as long as [[UNK]] is not a
    learned token, and the text of the padding token gives no id at
    all. *)
Theorem drawn_word_is_fed_back (learned : list token) :
  (∀ (i : nat) (t : token),
     NoDup learned → learned !! i = Some t →
     t ≠ [] →
     Forall (λ c, WordLevel.is_space c = false ∧ c ≠ ZWNJ) t →
     (PIPE ∈ t → t = [PIPE]) →
     (t = lit "<newline>" ∨ ∀ l1 l2, t ≠ l1 ++ lit "<newline>" ++ l2) →
     ∃ w, WordLevel.ids_to_text learned [(Z.of_nat i + 2)%Z] = Returned w
          ∧ WordLevel.text_vec learned w = [(Z.of_nat i + 2)%Z])
  ∧ (UNK ∉ learned →
     ∃ w, WordLevel.ids_to_text learned [1%Z] = Returned w
          ∧ WordLevel.text_vec learned w = [1%Z])
  ∧ (∃ w, WordLevel.ids_to_text learned [0%Z] = Returned w
          ∧ WordLevel.text_vec learned w = []).
Proof.
  split_and!.
  - intros i t Hdup Hi Hne Hclean Hpipe Hnl.
    assert (t ∈ learned) as Hin by by eapply list_elem_of_lookup_2.
    assert (WordLevel.lookup learned t = (Z.of_nat i + 2)%Z) as Hid.
    { destruct (word_lookup_elem_of _ _ Hne Hin) as (j & -> & Hj).
      by rewrite (NoDup_lookup _ _ _ _ Hdup Hi Hj). }
    exists (regex_replace (lit "<newline>") [NL] t). split.
    + unfold WordLevel.ids_to_text. cbn [mapM].
      replace (Z.of_nat i + 2)%Z with (Z.of_nat (S (S i))) by lia.
      by rewrite (list_getitem_lookup _ (S (S i)) t).
    + unfold WordLevel.text_vec. rewrite <-Hid.
      destruct Hnl as [-> | Hnl]; [done|].
      rewrite regex_replace_no_match by done.
      by rewrite well_formed_token_split.
  - intros Hunk. exists UNK. split.
    + unfold WordLevel.ids_to_text. cbn [mapM].
      by rewrite (list_getitem_lookup _ 1 UNK).
    + unfold WordLevel.text_vec.
      change (WordLevel.split (WordLevel.custom_standardization UNK))
        with [UNK].
      cbn [fmap list_fmap]. by rewrite word_lookup_not_elem_of.
  - exists []. split; [|done].
    unfold WordLevel.ids_to_text. cbn [mapM].
    by rewrite (list_getitem_lookup _ 0 []).
Qed.

Lemma drawn_word_is_fed_back_witness :
  let learned := [lit "|"; lit "<newline>"; lit "ab"] in
  ∃ w, WordLevel.ids_to_text learned [4%Z] = Returned w
       ∧ WordLevel.text_vec learned w = [4%Z].
Proof.
  cbn zeta.
  refine (proj1 (drawn_word_is_fed_back [lit "|"; lit "<newline>"; lit "ab"])
            2 (lit "ab") _ _ _ _ _ _).
  - apply (bool_decide_unpack _). by vm_compute.
  - done.
  - done.
  - apply (bool_decide_unpack _). by vm_compute.
  - assert (PIPE ∉ lit "ab") as Hn
      by (apply (bool_decide_unpack _); by vm_compute).
    intros Hin. by destruct Hn.
  - right. intros l1 l2 H. apply (f_equal length) in H.
    rewrite !length_app in H. cbn in H. lia.
Defined.

(** ** Temperatures and draws *)

Section DrawFacts.
Variable expq : Qc → Qc.
Hypothesis expq_pos : ∀ q, (0 < expq q)%Qc.

End DrawFacts.







(** ** Reading a decoded text again *)

Section Retokenize.
Implicit Types (learned : list token) (t word : token) (text : str).

Lemma custom_standardization_app (a b : str) :
  WordLevel.custom_standardization (a ++ b)
  = WordLevel.custom_standardization a ++ WordLevel.custom_standardization b.
Proof.
  induction a as [|c a IH]; [done|].
  rewrite <-app_comm_cons, !custom_standardization_cons, IH.
  by rewrite (assoc_L (++)).
Qed.

Lemma split_go_flush word : WordLevel.split_go word [] = flush word.
Proof. done. Qed.

Lemma split_go_app_space word (x y : str) :
  WordLevel.split_go word (x ++ lit " " ++ y)
  = WordLevel.split_go word x ++ WordLevel.split_go [] y.
Proof.
  revert word. induction x as [|c x IH]; intros word.
  - cbn [app]. rewrite split_go_flush.
    change (lit " " ++ y) with (32%N :: y). rewrite split_go_space by done.
    done.
  - rewrite <-app_comm_cons. cbn [WordLevel.split_go].
    destruct (WordLevel.is_space c).
    + case_bool_decide; [by rewrite IH|].
      by rewrite IH, app_comm_cons.
    + by rewrite IH.
Qed.

Lemma split_join_space (a b : str) :
  WordLevel.split (WordLevel.custom_standardization (a ++ lit " " ++ b))
  = WordLevel.split (WordLevel.custom_standardization a)
    ++ WordLevel.split (WordLevel.custom_standardization b).
Proof.
  unfold WordLevel.split. rewrite !custom_standardization_app.
  change (WordLevel.custom_standardization (lit " ")) with (lit " ").
  apply split_go_app_space.
Qed.

Lemma retokenize_join (ps : list str) (ts : list token) :
  Forall2 (λ p t,
    WordLevel.split (WordLevel.custom_standardization p) = [t]) ps ts →
  WordLevel.split
    (WordLevel.custom_standardization (WordLevel.reduce_join (lit " ") ps))
  = ts.
Proof.
  induction 1 as [|p t ps ts Hp Hps IH]; [done|].
  destruct Hps as [|p' t' ps ts Hp' Hps]; [done|].
  change (WordLevel.reduce_join (lit " ") (p :: p' :: ps))
    with (p ++ lit " " ++ WordLevel.reduce_join (lit " ") (p' :: ps)).
  by rewrite split_join_space, Hp, IH.
Qed.

Lemma token_ok_split t :
  token_ok t → WordLevel.split (WordLevel.custom_standardization t) = [t].
Proof.
  intros [Hne [-> | Hclean]]; [done|].
  unfold WordLevel.split. rewrite split_go_clean by done.
  unfold flush. cbn [app]. by rewrite bool_decide_eq_false_2.
Qed.

Lemma decoded_token_split t :
  token_ok t →
  (t = lit "<newline>" ∨ ∀ l1 l2, t ≠ l1 ++ lit "<newline>" ++ l2) →
  WordLevel.split
    (WordLevel.custom_standardization
       (regex_replace (lit "<newline>") [NL] t)) = [t].
Proof.
  intros Hok [-> | Hno]; [done|].
  rewrite regex_replace_no_match by done. by apply token_ok_split.
Qed.

Lemma word_getitem_lookup_any learned t :
  t ≠ [] →
  WordLevel.list_getitem (WordLevel.get_vocabulary learned)
    (WordLevel.lookup learned t)
  = Returned (if decide (t ∈ learned) then t else UNK).
Proof.
  intros Hne. case_decide as Hin.
  - apply word_getitem_lookup. by do 2 right.
  - rewrite word_lookup_not_elem_of by done.
    by apply (list_getitem_lookup _ 1).
Qed.

Lemma word_mapM_getitem_any learned (ts : list token) :
  Forall (λ t, t ≠ []) ts →
  mapM (WordLevel.list_getitem (WordLevel.get_vocabulary learned))
    (WordLevel.lookup learned <$> ts)
  = Returned ((λ t, if decide (t ∈ learned) then t else UNK) <$> ts).
Proof.
  induction 1 as [|t ts Ht _ IH]; [done|].
  cbn. rewrite (word_getitem_lookup_any _ _ Ht). cbn. by rewrite IH.
Qed.
End Retokenize.

(** X19: the text that [ids_to_text] makes of the ids of a text is read
    by [text_vec] as the same ids again (a token that was not learned
    comes back as [[UNK]], with the same id [1]), provided [[UNK]] is not
    itself a learned token and [<newline>] occurs in the tokens of the
    text only as a whole token.  [ids_to_text] raises nothing on the ids
    [text_vec] gives. *)
Theorem word_decode_then_encode (learned : list token) (text : str) :
  UNK ∉ learned →
  Forall (λ t, t = lit "<newline>" ∨ ∀ l1 l2, t ≠ l1 ++ lit "<newline>" ++ l2)
    (WordLevel.split (WordLevel.custom_standardization text)) →
  ∃ decoded,
    WordLevel.ids_to_text learned (WordLevel.text_vec learned text)
    = Returned decoded
    ∧ WordLevel.text_vec learned decoded = WordLevel.text_vec learned text.
Proof.
  intros Hunk Hnl. unfold WordLevel.ids_to_text, WordLevel.text_vec at 1.
  set (tokens := WordLevel.split (WordLevel.custom_standardization text)) in *.
  assert (Forall token_ok tokens) as Hok by (by apply split_go_tokens_ok).
  rewrite word_mapM_getitem_any.
  2: { eapply Forall_impl; [exact Hok|]. by intros t [? _]. }
  cbn [mbind outcome_bind mret outcome_ret]. eexists. split; [done|].
  unfold WordLevel.text_vec. fold tokens.
  rewrite (retokenize_join _
             ((λ t, if decide (t ∈ learned) then t else UNK) <$> tokens)).
  - rewrite <-list_fmap_compose. apply Forall_fmap_ext_1.
    eapply Forall_impl; [exact Hok|]. intros t [Hne _]. cbn.
    case_decide as Hin; [done|].
    by rewrite !word_lookup_not_elem_of.
  - rewrite <-list_fmap_compose. apply Forall2_fmap, Forall_Forall2_diag.
    apply Forall_forall. intros t Ht. cbn.
    pose proof (proj1 (Forall_forall _ _) Hok t Ht) as Htok.
    pose proof (proj1 (Forall_forall _ _) Hnl t Ht) as Htnl.
    case_decide; [by apply decoded_token_split | done].
Qed.

Lemma word_decode_then_encode_witness :
  let learned := [lit "|"; lit "<newline>"; lit "ab"] in
  ∃ decoded,
    WordLevel.ids_to_text learned (WordLevel.text_vec learned (lit "ab|cd"))
    = Returned decoded
    ∧ WordLevel.text_vec learned decoded
      = WordLevel.text_vec learned (lit "ab|cd").
Proof.
  cbn zeta. apply word_decode_then_encode.
  - apply (bool_decide_unpack _). by vm_compute.
  - change (WordLevel.split (WordLevel.custom_standardization (lit "ab|cd")))
      with [lit "ab"; lit "|"; lit "cd"].
    repeat (constructor;
      [right; intros l1 l2 H; apply (f_equal length) in H;
       rewrite !length_app in H; cbn in H; lia|]).
    constructor.
Defined.

(** ** Decoding id by id *)

Lemma reduce_join_app (sep : str) (a b : list token) :
  a ≠ [] → b ≠ [] →
  WordLevel.reduce_join sep (a ++ b)
  = WordLevel.reduce_join sep a ++ sep ++ WordLevel.reduce_join sep b.
Proof.
  intros Ha Hb. induction a as [|x a IH]; [done|].
  destruct a as [|y a].
  - destruct b; done.
  - change (WordLevel.reduce_join sep ((x :: y :: a) ++ b))
      with (x ++ sep ++ WordLevel.reduce_join sep ((y :: a) ++ b)).
    rewrite IH by done.
    change (WordLevel.reduce_join sep (x :: y :: a))
      with (x ++ sep ++ WordLevel.reduce_join sep (y :: a)).
    by rewrite <-!(assoc_L (++)).
Qed.

Lemma mapM_outcome_app {A B} (f : A → outcome B) (a b : list A) :
  mapM f (a ++ b)
  = xs ← mapM f a; ys ← mapM f b; mret (xs ++ ys).
Proof.
  induction a as [|x a IH].
  - cbn. by destruct (mapM f b).
  - cbn. destruct (f x) as [y|e]; [|done]. cbn. rewrite IH.
    destruct (mapM f a) as [ys|e]; [|done]. cbn.
    by destruct (mapM f b).
Qed.

Lemma mapM_outcome_length {A B} (f : A → outcome B) (a : list A) xs :
  mapM f a = Returned xs → length xs = length a.
Proof.
  revert xs. induction a as [|x a IH]; intros xs.
  - by intros [= <-].
  - cbn. destruct (f x) as [y|e]; [|done]. cbn.
    destruct (mapM f a) as [ys|e]; [|done]. cbn.
    intros [= <-]. cbn. by rewrite (IH ys).
Qed.

(** X20: decoding a sequence of ids in parts.  In the character notebook
    the text of two sequences one after the other is the two texts one
    after the other.  In the word notebook, where the loop decodes each
    drawn id on its own, the text of two sequences that are not empty is
    the two texts with one space between them, and the whole raises
    [IndexError] as soon as one part does. *)
Theorem decoding_in_parts :
  (∀ (vocabulary : list token) (a b : list token_id),
     CharLevel.ids_to_text vocabulary (a ++ b)
     = CharLevel.ids_to_text vocabulary a ++ CharLevel.ids_to_text vocabulary b)
  ∧ (∀ (learned : list token) (a b : list token_id) (ta tb : str),
       a ≠ [] → b ≠ [] →
       WordLevel.ids_to_text learned a = Returned ta →
       WordLevel.ids_to_text learned b = Returned tb →
       WordLevel.ids_to_text learned (a ++ b) = Returned (ta ++ lit " " ++ tb))
  ∧ (∀ (learned : list token) (a b : list token_id) (e : exn),
       WordLevel.ids_to_text learned a = Raised e
       ∨ WordLevel.ids_to_text learned b = Raised e →
       WordLevel.ids_to_text learned (a ++ b) = Raised IndexError).
Proof.
  split_and!.
  - intros vocabulary a b. unfold CharLevel.ids_to_text, join. cbn zeta.
    by rewrite fmap_app, concat_app.
  - intros learned a b ta tb Ha Hb. unfold WordLevel.ids_to_text.
    rewrite mapM_outcome_app.
    destruct (mapM _ a) as [xs|e] eqn:Hxs; [|done].
    destruct (mapM _ b) as [ys|e] eqn:Hys; [|done].
    cbn. intros [= <-] [= <-]. f_equal.
    rewrite fmap_app. apply reduce_join_app.
    + apply mapM_outcome_length in Hxs. destruct xs, a; done.
    + apply mapM_outcome_length in Hys. destruct ys, b; done.
  - intros learned a b e Hraise.
    destruct (WordLevel.ids_to_text learned (a ++ b)) as [t|e'] eqn:Hab.
    2: { by apply word_ids_to_text_raises in Hab as ->. }
    exfalso. revert Hab Hraise. unfold WordLevel.ids_to_text.
    rewrite mapM_outcome_app.
    destruct (mapM _ a) as [xs|ea]; [|done].
    destruct (mapM _ b) as [ys|eb]; [|done].
    cbn. by intros _ [?|?].
Qed.

Lemma decoding_in_parts_witness :
  let learned := [lit "|"; lit "<newline>"; lit "ab"] in
  WordLevel.ids_to_text learned ([4%Z] ++ [2%Z; 3%Z])
  = Returned (lit "ab" ++ lit " " ++ [PIPE; 32%N; NL]).
Proof.
  cbn zeta.
  destruct decoding_in_parts as (_ & H & _).
  by apply (H [lit "|"; lit "<newline>"; lit "ab"] [4%Z] [2%Z; 3%Z]).
Defined.
